(** * budget-buddy scraper: robots policy gate and page extractor

    A shallow embedding of the worker's [fetchRobots], [stripTags],
    [extractData] and [/scrape] handler, with the properties of the
    specification stated and proved over it.

    JavaScript strings are sequences of 16-bit code units; they are modelled
    as [list N].  Regular expressions are modelled by a small backtracking
    matcher covering the constructs the source uses. *)

From Stdlib Require Import Ascii String NArith QArith Qround Sorted.
From stdpp Require Import base list gmap sets strings.

Local Open Scope N_scope.

(** ** Strings *)

Abbreviation jsstring := (list N).

(** A string literal, written in ASCII. *)
Definition js (s : string) : jsstring :=
  (fun a => N_of_ascii a) <$> list_ascii_of_string s.

(** Code units named in the source or needed to write markup. *)
Definition LF : N := 10.
Definition CR : N := 13.
Definition DQUOTE : N := 34.
Definition SQUOTE : N := 39.

(** WhiteSpace and LineTerminator of ECMAScript: what [trim] strips and what
    the class [\s] matches. *)
Definition is_space (c : N) : bool :=
  (9 <=? c) && (c <=? 13) || (c =? 32) || (c =? 160) || (c =? 5760)
  || (8192 <=? c) && (c <=? 8202) || (c =? 8232) || (c =? 8233)
  || (c =? 8239) || (c =? 8287) || (c =? 12288) || (c =? 65279).

Fixpoint trimStart (s : jsstring) : jsstring :=
  match s with
  | c :: s' => if is_space c then trimStart s' else s
  | [] => []
  end.

Definition trimEnd (s : jsstring) : jsstring := reverse (trimStart (reverse s)).

Definition trim (s : jsstring) : jsstring := trimEnd (trimStart s).

(** [s.startsWith(d)]. *)
Fixpoint startsWith (s d : jsstring) {struct d} : bool :=
  match d, s with
  | [], _ => true
  | x :: d', y :: s' => (x =? y) && startsWith s' d'
  | _ :: _, [] => false
  end.

(** [s.split(sep)] for a separator of one code unit: every occurrence
    separates. *)
Fixpoint split_on (sep : N) (s : jsstring) : list jsstring :=
  match s with
  | [] => [[]]
  | c :: s' =>
      if c =? sep then [] :: split_on sep s'
      else match split_on sep s' with
           | p :: ps => (c :: p) :: ps
           | [] => [[c]]
           end
  end.

(** [s.split(sep, limit)]: the pieces of [s.split(sep)], cut after [limit]
    of them. *)
Definition split_limit (sep : N) (limit : nat) (s : jsstring) : list jsstring :=
  take limit (split_on sep s).

(** [txt.split(/\r?\n/)]: a line feed separates, together with a carriage
    return just before it. *)
Fixpoint split_lines_from (cur : jsstring) (s : jsstring) : list jsstring :=
  match s with
  | [] => [cur]
  | c :: rest =>
      if c =? LF then cur :: split_lines_from [] rest
      else match rest with
           | c2 :: rest2 =>
               if (c =? CR) && (c2 =? LF) then cur :: split_lines_from [] rest2
               else split_lines_from (cur ++ [c]) rest
           | [] => split_lines_from (cur ++ [c]) rest
           end
  end.

Definition split_lines (s : jsstring) : list jsstring := split_lines_from [] s.

(** ** Regular expressions *)

Module Regex.

(** The constructs of the source's patterns.  A pattern is a sequence of
    atoms; quantifiers only ever apply to one character class there. *)
Inductive atom :=
| Chr (c : N)
| Cls (p : N -> bool)
| Rep (greedy : bool) (lo : nat) (hi : option nat) (p : N -> bool)
| Open (g : nat)
| Close (g : nat)
| Backref (g : nat)
| Eos.

Abbreviation captures := (list (nat * jsstring)).

(** Canonicalize under the [i] flag, on ASCII.  Every comparison the
    patterns make has a pattern character or a captured ASCII text on one
    side, and no code unit from 128 on canonicalizes to one below. *)
Definition canon (ci : bool) (c : N) : N :=
  if ci && (97 <=? c) && (c <=? 122) then c - 32 else c.

Definition same (ci : bool) (c x : N) : bool := canon ci c =? canon ci x.

Fixpoint cap_lookup (g : nat) (caps : captures) : option jsstring :=
  match caps with
  | [] => None
  | (h, t) :: caps' => if Nat.eqb g h then Some t else cap_lookup g caps'
  end.

(** What a group that opened at suffix [start] has captured once the
    matcher is at suffix [s]. *)
Definition captured (start : option jsstring) (s : jsstring) : jsstring :=
  match start with
  | Some st => take (length st - length s) st
  | None => []
  end.

(** Consumes the text [t], compared through [same]. *)
Fixpoint eat (ci : bool) (t s : jsstring) : option jsstring :=
  match t, s with
  | [], _ => Some s
  | c :: t', x :: s' => if same ci c x then eat ci t' s' else None
  | _ :: _, [] => None
  end.

Definition spent (hi : option nat) : bool :=
  match hi with Some O => true | _ => false end.

(** A greedy quantifier: takes one more character first, and gives back
    when the continuation [k] fails. *)
Fixpoint rep_greedy {R} (p : N -> bool) (lo : nat) (hi : option nat)
    (k : jsstring -> option R) (s : jsstring) {struct s} : option R :=
  let stop := match lo with O => k s | S _ => None end in
  match s with
  | c :: s' =>
      if negb (spent hi) && p c then
        match rep_greedy p (pred lo) (pred <$> hi) k s' with
        | Some r => Some r
        | None => stop
        end
      else stop
  | [] => stop
  end.

(** A lazy quantifier: tries the continuation first, and takes one more
    character when it fails. *)
Fixpoint rep_lazy {R} (p : N -> bool) (lo : nat) (hi : option nat)
    (k : jsstring -> option R) (s : jsstring) {struct s} : option R :=
  let more :=
    match s with
    | c :: s' =>
        if negb (spent hi) && p c then rep_lazy p (pred lo) (pred <$> hi) k s'
        else None
    | [] => None
    end in
  match lo with
  | O => match k s with Some r => Some r | None => more end
  | S _ => more
  end.

(** The backtracking matcher at one position: the captures and the suffix
    left after the match. *)
Fixpoint run (ci : bool) (re : list atom) (opens caps : captures)
    (s : jsstring) {struct re} : option (captures * jsstring) :=
  match re with
  | [] => Some (caps, s)
  | Chr c :: re' =>
      match s with
      | x :: s' => if same ci c x then run ci re' opens caps s' else None
      | [] => None
      end
  | Cls p :: re' =>
      match s with
      | x :: s' => if p x then run ci re' opens caps s' else None
      | [] => None
      end
  | Rep true lo hi p :: re' => rep_greedy p lo hi (run ci re' opens caps) s
  | Rep false lo hi p :: re' => rep_lazy p lo hi (run ci re' opens caps) s
  | Open g :: re' => run ci re' ((g, s) :: opens) caps s
  | Close g :: re' =>
      run ci re' opens ((g, captured (cap_lookup g opens) s) :: caps) s
  | Backref g :: re' =>
      match cap_lookup g caps with
      | None => run ci re' opens caps s
      | Some t =>
          match eat ci t s with
          | Some s' => run ci re' opens caps s'
          | None => None
          end
      end
  | Eos :: re' =>
      match s with
      | [] => run ci re' opens caps s
      | _ :: _ => None
      end
  end.

(** A match: where it starts, how long it is, its text and its groups. *)
Record result := { index : nat; whole : jsstring; groups : captures }.

(** [m[g]], the empty string standing for an absent group. *)
Definition group (m : result) (g : nat) : jsstring :=
  default [] (cap_lookup g (groups m)).

Definition match_at (ci : bool) (re : list atom) (pos : nat) (s : jsstring)
    : option result :=
  match run ci re [] [] s with
  | Some (caps, rest) =>
      Some {| index := pos; whole := take (length s - length rest) s;
              groups := caps |}
  | None => None
  end.

(** The successive results of [re.exec(s)] under the [g] flag, the first
    one searched from [lastIndex = 0]: the leftmost match from
    [lastIndex] on, after which [lastIndex] is the end of that match.
    [skip] counts the characters left before [lastIndex].  (After an
    empty match, which no pattern of the source has, the search moves on
    by one character.) *)
Fixpoint scan (ci : bool) (re : list atom) (skip pos : nat) (s : jsstring)
    {struct s} : list result :=
  match skip with
  | S n =>
      match s with
      | _ :: s' => scan ci re n (S pos) s'
      | [] => []
      end
  | O =>
      match match_at ci re pos s with
      | Some m =>
          m :: match s with
               | _ :: s' => scan ci re (pred (length (whole m))) (S pos) s'
               | [] => []
               end
      | None =>
          match s with
          | _ :: s' => scan ci re O (S pos) s'
          | [] => []
          end
      end
  end.

Definition exec_all (ci : bool) (re : list atom) (s : jsstring) : list result :=
  scan ci re O O s.

(** [s.match(re)] without the [g] flag: the leftmost match. *)
Definition first_match (ci : bool) (re : list atom) (s : jsstring)
    : option result :=
  head (exec_all ci re s).

(** [re.test(s)] for a pattern that begins with [^]: it can only match
    at index 0. *)
Definition test_anchored (ci : bool) (re : list atom) (s : jsstring) : bool :=
  bool_decide (is_Some (run ci re [] [] s)).

(** [s.replace(re, by)] under the [g] flag. *)
Fixpoint replace_from (ci : bool) (re : list atom) (by_ : jsstring)
    (skip : nat) (s : jsstring) {struct s} : jsstring :=
  match skip with
  | S n =>
      match s with
      | _ :: s' => replace_from ci re by_ n s'
      | [] => []
      end
  | O =>
      match match_at ci re O s with
      | Some m =>
          by_ ++ match s with
                 | _ :: s' => replace_from ci re by_ (pred (length (whole m))) s'
                 | [] => []
                 end
      | None =>
          match s with
          | c :: s' => c :: replace_from ci re by_ O s'
          | [] => []
          end
      end
  end.

Definition replace_all (ci : bool) (re : list atom) (by_ s : jsstring) : jsstring :=
  replace_from ci re by_ O s.

(** The literal text [t] as a pattern. *)
Definition text (t : jsstring) : list atom := Chr <$> t.

End Regex.

(** ** Numbers *)

(** A JavaScript number, that is a binary64 value: NaN, an infinity, the
    negative zero, or a finite value, given by the rational it stands for
    in lowest terms ([Fin 0] is the positive zero). *)
Inductive jsnum := NaN | Inf (neg : bool) | NegZero | Fin (q : Q).

(** [Number.isNaN(n)]. *)
Definition isNaN (n : jsnum) : bool :=
  match n with NaN => true | _ => false end.

(** The value of a digit in a radix, when it is one. *)
Definition digit_of (radix c : N) : option N :=
  let v :=
    if (48 <=? c) && (c <=? 57) then Some (c - 48)
    else if (97 <=? c) && (c <=? 102) then Some (c - 87)
    else if (65 <=? c) && (c <=? 70) then Some (c - 55)
    else None in
  match v with
  | Some d => if d <? radix then Some d else None
  | None => None
  end.

(** The longest run of digits at the head of [s], and what follows it. *)
Fixpoint digits_from (radix : N) (s : jsstring) : list N * jsstring :=
  match s with
  | c :: s' =>
      match digit_of radix c with
      | Some d => let '(ds, r) := digits_from radix s' in (d :: ds, r)
      | None => ([], s)
      end
  | [] => ([], [])
  end.

Definition digits_value (radix : N) (ds : list N) : N :=
  foldl (fun a d => radix * a + d) 0 ds.

Definition signed (neg : bool) (z : Z) : Z := if neg then Z.opp z else z.

Definition sign_from (s : jsstring) : bool * jsstring :=
  match s with
  | c :: r => if c =? 45 then (true, r) else if c =? 43 then (false, r) else (false, s)
  | [] => (false, [])
  end.

(** NonDecimalIntegerLiteral: [0x], [0o] or [0b] and digits to the end. *)
Definition nondecimal (s : jsstring) : option Q :=
  match s with
  | z :: x :: r =>
      let radix :=
        if (x =? 120) || (x =? 88) then Some 16
        else if (x =? 111) || (x =? 79) then Some 8
        else if (x =? 98) || (x =? 66) then Some 2
        else None in
      match radix with
      | Some b =>
          match digits_from b r with
          | ((_ :: _) as ds, []) =>
              if z =? 48 then Some (inject_Z (Z.of_N (digits_value b ds))) else None
          | _ => None
          end
      | None => None
      end
  | _ => None
  end.

(** ExponentPart, or nothing, to the end of the text. *)
Definition exponent (s : jsstring) : option Z :=
  match s with
  | [] => Some 0%Z
  | c :: r =>
      if (c =? 101) || (c =? 69) then
        let '(neg, r') := sign_from r in
        match digits_from 10 r' with
        | ((_ :: _) as ds, []) => Some (signed neg (Z.of_N (digits_value 10 ds)))
        | _ => None
        end
      else None
  end.

(** StrUnsignedDecimalLiteral other than [Infinity]: digits, an optional
    fraction and an optional exponent, with a digit on one side of the dot
    at least. *)
Definition unsigned_decimal (s : jsstring) : option Q :=
  let '(ip, r1) := digits_from 10 s in
  let '(fp, r2) :=
    match r1 with
    | c :: r => if c =? 46 then digits_from 10 r else ([], r1)
    | [] => ([], [])
    end in
  match ip ++ fp with
  | [] => None
  | _ :: _ =>
      match exponent r2 with
      | Some e =>
          Some (Qred (inject_Z (Z.of_N (digits_value 10 (ip ++ fp)))
                      * Qpower (inject_Z 10) (e - Z.of_nat (length fp))))
      | None => None
      end
  end.

(** The exponent [e] with [2^e <= q < 2^(e+1)], for a positive [q]. *)
Definition binary_exponent (q : Q) : Z :=
  let k := (Z.log2 (Qnum q) - Z.log2 (Zpos (Qden q)))%Z in
  if Qle_bool (Qpower 2 k) q then k else (k - 1)%Z.

(** The integer nearest to a rational that is not negative, the even one
    of the two at a tie. *)
Definition round_half_even (q : Q) : Z :=
  let f := Qfloor q in
  match Qcompare (q - inject_Z f) (1 # 2) with
  | Lt => f
  | Gt => (f + 1)%Z
  | Eq => if Z.even f then f else (f + 1)%Z
  end.

(** The binary64 value nearest to the magnitude [q] with the sign [neg]:
    53 significant bits, exponents from -1022 (below which the spacing
    stays that of the subnormal numbers) to 1023 (above which the value is
    an infinity), ties to the even significand. *)
Definition binary64 (neg : bool) (q : Q) : jsnum :=
  let zero := if neg then NegZero else Fin 0 in
  if Qeq_bool q 0 then zero
  else
    let e := Z.max (binary_exponent q) (-1022) in
    let ulp := Qpower 2 (e - 52) in
    let v := Qred (inject_Z (round_half_even (q / ulp)) * ulp) in
    if Qle_bool (Qpower 2 1024) v then Inf neg
    else if Qeq_bool v 0 then zero
    else Fin (if neg then Qopp v else v).

(** [Number(s)] on a string: StringToNumber, the value of the literal
    rounded to binary64. *)
Definition Number (s : jsstring) : jsnum :=
  let t := trim s in
  match t with
  | [] => Fin 0
  | _ :: _ =>
      match nondecimal t with
      | Some q => binary64 false q
      | None =>
          let '(neg, r) := sign_from t in
          if bool_decide (r = js "Infinity") then Inf neg
          else match unsigned_decimal r with
               | Some q => binary64 neg q
               | None => NaN
               end
      end
  end.

(** ** Exceptions *)

(** A computation that returns or throws an error with a message. *)
Inductive exc (A : Type) := Ret (a : A) | Throw (message : jsstring).
Arguments Ret {A} a.
Arguments Throw {A} message.

#[global] Instance exc_ret : MRet exc := fun A a => Ret a.
#[global] Instance exc_bind : MBind exc := fun A B f m =>
  match m with
  | Ret a => f a
  | Throw e => Throw e
  end.

#[global] Instance exc_fmap : FMap exc := fun A B f m =>
  match m with
  | Ret a => Ret (f a)
  | Throw e => Throw e
  end.

(** [try { m } catch { h }]. *)
Definition try_catch {A} (m : exc A) (h : jsstring -> exc A) : exc A :=
  match m with
  | Ret a => Ret a
  | Throw e => h e
  end.

(** ** The platform *)

(** A parsed URL object, with the properties the worker reads. *)
Module URL.
Record t := {
  origin : jsstring;
  pathname : jsstring;
  search : jsstring;
  hash : jsstring;
  href : jsstring
}.
End URL.

(** A response of [fetch]; reading its text can fail. *)
Record response := {
  status : N;
  statusText : jsstring;
  body : exc jsstring
}.

(** [res.ok]: the status is in the range 200 to 299. *)
Definition ok (res : response) : bool := (200 <=? status res) && (status res <=? 299).

(** A request of [fetch]: the address and the agent header, if one is set. *)
Record request := { target : jsstring; agent : option jsstring }.

(** ** PolicyGate: [fetchRobots] *)

Module Robots.
(** What [fetchRobots] resolves to. *)
Record t := { allowed : jsstring -> bool; crawlDelay : option jsnum }.
End Robots.

(** The variables of the parsing loop. *)
Record pstate := {
  inStar : bool;
  disallows : list jsstring;
  crawlDelay : option jsnum
}.

Definition COLON : N := 58.

(** [/^User-agent$/i], [/^Disallow$/i], [/^Crawl-delay$/i]. *)
Definition re_user_agent : list Regex.atom := Regex.text (js "User-agent") ++ [Regex.Eos].
Definition re_disallow : list Regex.atom := Regex.text (js "Disallow") ++ [Regex.Eos].
Definition re_crawl_delay : list Regex.atom := Regex.text (js "Crawl-delay") ++ [Regex.Eos].

(** [line.split(':', 2).map((s) => s.trim())], destructured into [k] and
    [vRaw ?? '']. *)
Definition directive (line : jsstring) : jsstring * jsstring :=
  let parts := trim <$> split_limit COLON 2 line in
  (default [] (parts !! 0%nat), default [] (parts !! 1%nat)).

(** One turn of the loop over the lines. *)
Definition robots_line (st : pstate) (line : jsstring) : pstate :=
  if bool_decide (line = []) || startsWith line (js "#") then st
  else
    let '(k, v) := directive line in
    if Regex.test_anchored true re_user_agent k then
      {| inStar := bool_decide (v = js "*");
         disallows := disallows st; crawlDelay := crawlDelay st |}
    else if negb (inStar st) then st
    else if Regex.test_anchored true re_disallow k then
      if bool_decide (v = []) then st
      else {| inStar := inStar st; disallows := disallows st ++ [v];
              crawlDelay := crawlDelay st |}
    else if Regex.test_anchored true re_crawl_delay k then
      let n := Number v in
      if negb (isNaN n) then
        {| inStar := inStar st; disallows := disallows st; crawlDelay := Some n |}
      else st
    else st.

Definition robots_start : pstate :=
  {| inStar := false; disallows := []; crawlDelay := None |}.

(** The lines of the document, trimmed. *)
Definition robots_lines (txt : jsstring) : list jsstring := trim <$> split_lines txt.

(** The loop over all lines of a document. *)
Definition robots_parse (txt : jsstring) : pstate :=
  foldl robots_line robots_start (robots_lines txt).

(** The closure returned as [allowed]. *)
Fixpoint allowed_by (ds : list jsstring) (path : jsstring) : bool :=
  match ds with
  | [] => true
  | d :: ds' =>
      if bool_decide (d = []) then allowed_by ds' path
      else if startsWith path d then false
      else allowed_by ds' path
  end.

(** The fail-open policy, [{ allowed: () => true }]. *)
Definition permissive : Robots.t :=
  {| Robots.allowed := fun _ => true; Robots.crawlDelay := None |}.

Definition robots_policy (st : pstate) : Robots.t :=
  {| Robots.allowed := allowed_by (disallows st); Robots.crawlDelay := crawlDelay st |}.

Definition fetchRobots (fetch : request -> exc response) (origin : jsstring)
    : exc Robots.t :=
  let robotsUrl := origin ++ js "/robots.txt" in
  try_catch
    (res ← fetch {| target := robotsUrl; agent := None |};
     if negb (ok res) then Ret permissive
     else
       txt ← body res;
       Ret (robots_policy (robots_parse txt)))
    (fun _ => Ret permissive).

(** ** PageExtractor: [stripTags] and [extractData] *)

Definition LT : N := 60.
Definition GT : N := 62.
Definition SLASH : N := 47.

(** The classes [[^>]], [[\s\S]], [[1-3]], [["']] and [[^"'\s>]]. *)
Definition not_gt (c : N) : bool := negb (c =? GT).
Definition any_char (c : N) : bool := true.
Definition one_to_three (c : N) : bool := (49 <=? c) && (c <=? 51).
Definition is_quote (c : N) : bool := (c =? DQUOTE) || (c =? SQUOTE).
Definition href_char (c : N) : bool :=
  negb ((c =? DQUOTE) || (c =? SQUOTE) || is_space c || (c =? GT)).

(** [/<[^>]+>/g] and [/\s+/g]. *)
Definition re_tag : list Regex.atom :=
  [Regex.Chr LT; Regex.Rep true 1 None not_gt; Regex.Chr GT].
Definition re_spaces : list Regex.atom := [Regex.Rep true 1 None is_space].

Definition stripTags (s : jsstring) : jsstring :=
  trim (Regex.replace_all false re_spaces (js " ")
          (Regex.replace_all false re_tag [] s)).

(** [/<title[^>]*>([\s\S]*?)<\/title>/i]. *)
Definition re_title : list Regex.atom :=
  Regex.text (js "<title")
  ++ [Regex.Rep true 0 None not_gt; Regex.Chr GT;
      Regex.Open 1; Regex.Rep false 0 None any_char; Regex.Close 1]
  ++ Regex.text (js "</title>").

(** [/<(h[1-3])[^>]*>([\s\S]*?)<\/\1>/gi]. *)
Definition hRegex : list Regex.atom :=
  [Regex.Chr LT;
   Regex.Open 1; Regex.Chr 104; Regex.Cls one_to_three; Regex.Close 1;
   Regex.Rep true 0 None not_gt; Regex.Chr GT;
   Regex.Open 2; Regex.Rep false 0 None any_char; Regex.Close 2;
   Regex.Chr LT; Regex.Chr SLASH; Regex.Backref 1; Regex.Chr GT].

(** [/<a\s+[^>]*href=(["']?)([^"'\s>]+)\1[^>]*>([\s\S]*?)<\/a>/gi]. *)
Definition aRegex : list Regex.atom :=
  Regex.text (js "<a")
  ++ [Regex.Rep true 1 None is_space; Regex.Rep true 0 None not_gt]
  ++ Regex.text (js "href=")
  ++ [Regex.Open 1; Regex.Rep true 0 (Some 1%nat) is_quote; Regex.Close 1;
      Regex.Open 2; Regex.Rep true 1 None href_char; Regex.Close 2;
      Regex.Backref 1; Regex.Rep true 0 None not_gt; Regex.Chr GT;
      Regex.Open 3; Regex.Rep false 0 None any_char; Regex.Close 3]
  ++ Regex.text (js "</a>").

Record link := { href : jsstring; text : jsstring }.

Record extraction := {
  title : option jsstring;
  headings : list jsstring;
  links : list link
}.

(** The heading loop, over the successive results of [hRegex.exec(html)]:
    [while ((hMatch = hRegex.exec(html)) && headings.length < 5)]. *)
Fixpoint heading_loop (ms : list Regex.result) (headings : list jsstring)
    : list jsstring :=
  match ms with
  | [] => headings
  | hMatch :: ms' =>
      if (length headings <? 5)%nat then
        heading_loop ms' (headings ++ [stripTags (Regex.group hMatch 2)])
      else headings
  end.

(** The body of the anchor loop: the [try] block and its empty [catch]. *)
Definition anchor_body (URL_resolve : jsstring -> jsstring -> exc jsstring)
    (baseOrigin : jsstring) (aMatch : Regex.result) (links : list link)
    : exc (list link) :=
  try_catch
    (let rawHref := Regex.group aMatch 2 in
     let text := stripTags (Regex.group aMatch 3) in
     href ← URL_resolve rawHref baseOrigin;
     Ret (links ++ [{| href := href; text := text |}]))
    (fun _ => Ret links).

(** The anchor loop, over the successive results of [aRegex.exec(html)]:
    [while ((aMatch = aRegex.exec(html)) && links.length < 50)]. *)
Fixpoint anchor_loop (URL_resolve : jsstring -> jsstring -> exc jsstring)
    (baseOrigin : jsstring) (ms : list Regex.result) (links : list link)
    : exc (list link) :=
  match ms with
  | [] => Ret links
  | aMatch :: ms' =>
      if (length links <? 50)%nat then
        links' ← anchor_body URL_resolve baseOrigin aMatch links;
        anchor_loop URL_resolve baseOrigin ms' links'
      else Ret links
  end.

(** The deduplication loop, with its [break]. *)
Fixpoint unique_loop (ls : list link) (seen : gset jsstring) (unique : list link)
    : list link :=
  match ls with
  | [] => unique
  | l :: ls' =>
      if bool_decide (href l ∈ seen) then unique_loop ls' seen unique
      else
        let seen' := {[ href l ]} ∪ seen in
        let unique' := unique ++ [l] in
        if (10 <=? length unique')%nat then unique'
        else unique_loop ls' seen' unique'
  end.

(** [extractData(html, baseOrigin)]; [URL_resolve raw base] stands for
    [new URL(raw, base).toString()]. *)
Definition extractData (URL_resolve : jsstring -> jsstring -> exc jsstring)
    (html baseOrigin : jsstring) : exc extraction :=
  let titleMatch := Regex.first_match true re_title html in
  let title :=
    match titleMatch with
    | Some m => Some (stripTags (Regex.group m 1))
    | None => None
    end in
  let headings := heading_loop (Regex.exec_all true hRegex html) [] in
  links ← anchor_loop URL_resolve baseOrigin (Regex.exec_all true aRegex html) [];
  let unique := unique_loop links ∅ [] in
  Ret {| title := title; headings := headings; links := unique |}.

(** ** The [/scrape] handler *)

Inductive reply :=
| InvalidUrl
| Blocked
| Upstream (status : N) (statusText : jsstring)
| Scraped (url : jsstring) (crawlDelay : option jsnum) (data : extraction)
| Failed (message : jsstring).

(** [a || b] on strings. *)
Definition or_else (a b : jsstring) : jsstring :=
  match a with [] => b | _ :: _ => a end.

Definition default_target : jsstring := js "https://www.sharesansar.com/".
Definition user_agent : jsstring := js "Hono-Scraper/1.0 (+https://yourdomain.example)".

(** The path handed to the robots policy. *)
Definition tested_path (targetUrl : URL.t) : jsstring :=
  URL.pathname targetUrl ++ or_else (URL.search targetUrl) [].

(** The handler; [URL_new url] stands for [new URL(url)] and [query] for
    [c.req.query('url')]. *)
Definition scrape (URL_new : jsstring -> exc URL.t)
    (URL_resolve : jsstring -> jsstring -> exc jsstring)
    (fetch : request -> exc response) (query : option jsstring) : exc reply :=
  let url := or_else (default [] query) default_target in
  match URL_new url with
  | Throw _ => Ret InvalidUrl
  | Ret targetUrl =>
      let origin := URL.origin targetUrl in
      let path := tested_path targetUrl in
      robots ← fetchRobots fetch origin;
      if negb (Robots.allowed robots path) then Ret Blocked
      else
        try_catch
          (res ← fetch {| target := URL.href targetUrl; agent := Some user_agent |};
           if negb (ok res) then Ret (Upstream (status res) (statusText res))
           else
             html ← body res;
             data ← extractData URL_resolve html origin;
             Ret (Scraped (URL.href targetUrl) (Robots.crawlDelay robots) data))
          (fun e => Ret (Failed e))
  end.

(** ** Situations and inputs named in the properties *)

(** The ways the retrieval of the robots document fails: the request
    throws, the response is not a success, or its text cannot be read. *)
Inductive unavailable (fetch : request -> exc response) (origin : jsstring) : Prop :=
| Unreachable e :
    fetch {| target := origin ++ js "/robots.txt"; agent := None |} = Throw e ->
    unavailable fetch origin
| NonSuccess res :
    fetch {| target := origin ++ js "/robots.txt"; agent := None |} = Ret res ->
    ok res = false ->
    unavailable fetch origin
| Unreadable res e :
    fetch {| target := origin ++ js "/robots.txt"; agent := None |} = Ret res ->
    body res = Throw e ->
    unavailable fetch origin.

(** A server that answers every request with 404. *)
Definition fetch_404 (_ : request) : exc response :=
  Ret {| status := 404; statusText := js "Not Found"; body := Ret [] |}.

(** A document, from its lines. *)
Definition unlines (ls : list string) : jsstring :=
  mjoin ((fun l => js l ++ [LF]) <$> ls).

(** Two universal groups around a group for one crawler. *)
Definition two_groups_doc : jsstring :=
  unlines ["User-agent: *"; "Disallow: /a"; "User-agent: bot"; "Disallow: /x";
           "User-agent: *"; "Disallow: /b"]%string.



Definition colon_value_doc : jsstring :=
  unlines ["User-agent: *"; "Disallow: /a:b"]%string.

(** A server that answers every request with the text [doc]. *)
Definition fetch_serving (doc : jsstring) (_ : request) : exc response :=
  Ret {| status := 200; statusText := js "OK"; body := Ret doc |}.

(** A rule that reaches into the query string. *)
Definition query_rule_doc : jsstring :=
  unlines ["User-agent: *"; "Disallow: /p?q"]%string.

(** The URL object of [https://x.test/p] with a query and a fragment. *)
Definition page_url (search hash : jsstring) : URL.t :=
  {| URL.origin := js "https://x.test"; URL.pathname := js "/p";
     URL.search := search; URL.hash := hash;
     URL.href := js "https://x.test/p" ++ search ++ hash |}.

Definition is_alnum (c : N) : bool :=
  (48 <=? c) && (c <=? 57) || (65 <=? c) && (c <=? 90) || (97 <=? c) && (c <=? 122).

(** [new URL(raw, base).toString()] on the references used in the examples,
    for a base that is an http(s) origin: a reference made of one slash
    followed by ASCII letters and digits, with single slashes between them,
    resolves to the base followed by the reference; a reference that has a
    scheme and no host, such as [http://], makes the constructor throw.
    Every other reference is outside this fragment and is made to throw;
    the general properties below hold for any resolver and do not use this
    one. *)
Definition resolve_simple (raw base : jsstring) : exc jsstring :=
  match raw with
  | c :: r =>
      if (c =? SLASH) && negb (startsWith r (js "/"))
         && forallb (fun x => is_alnum x || (x =? SLASH)) r
      then Ret (base ++ raw)
      else Throw (js "Invalid URL")
  | [] => Throw (js "Invalid URL")
  end.

(** What one match of [aRegex] contributes: the link with the resolved
    address, or nothing when the address does not resolve. *)
Definition candidate (URL_resolve : jsstring -> jsstring -> exc jsstring)
    (baseOrigin : jsstring) (aMatch : Regex.result) : option link :=
  match URL_resolve (Regex.group aMatch 2) baseOrigin with
  | Ret h => Some {| href := h; text := stripTags (Regex.group aMatch 3) |}
  | Throw _ => None
  end.

(** First-seen-only by address, in the words of the specification: a link
    is kept when no link before it has the same address. *)
Fixpoint first_seen (earlier : list jsstring) (ls : list link) : list link :=
  match ls with
  | [] => []
  | l :: ls' =>
      if bool_decide (href l ∈ earlier) then first_seen earlier ls'
      else l :: first_seen (href l :: earlier) ls'
  end.

(** Markup for the examples: an anchor whose address has a scheme and no
    host, one with a path, and a page with 50 of the former before one of
    the latter. *)
Definition bad_anchor : jsstring := js "<a href=http://>x</a>".
Definition good_anchor : jsstring := js "<a href=/ok>y</a>".
Definition fifty_bad_one_good : jsstring :=
  mjoin (replicate 50 bad_anchor) ++ good_anchor.
Definition fifty_good : jsstring := mjoin (replicate 50 good_anchor).
Definition example_origin : jsstring := js "https://example.com".

(** A page with seven second-level headings, numbered from 1. *)
Definition seven_h2 : jsstring :=
  mjoin ((fun n => js "<h2>No " ++ [48 + n] ++ js "</h2>" ++ [LF]) <$> [1; 2; 3; 4; 5; 6; 7]).

(** Two anchors with one address, and a first-level heading closed in
    another case. *)
Definition twice_linked : jsstring :=
  js "<a href=/ok>first</a> <a href='/ok'>second</a>".
Definition shouted_heading : jsstring := js "<H1 id=a>Hi</h1>".

(** ** Notions used to state further properties *)

(** The pieces [ls] joined by the separator [sep], as [ls.join(sep)]. *)
Fixpoint join_with (sep : jsstring) (ls : list jsstring) : jsstring :=
  match ls with
  | [] => []
  | [l] => l
  | l :: ls' => l ++ sep ++ join_with sep ls'
  end.

(** A line the loop passes over: blank, a comment, or a [Disallow] with
    an empty value. *)
Definition ignorable (line : jsstring) : bool :=
  bool_decide (line = []) || startsWith line (js "#")
  || Regex.test_anchored true re_disallow (directive line).1
     && bool_decide ((directive line).2 = []).

(** A line that opens the universal group: a [User-agent] directive with
    the value [*]. *)
Definition opens_group (line : jsstring) : bool :=
  negb (bool_decide (line = []) || startsWith line (js "#"))
  && Regex.test_anchored true re_user_agent (directive line).1
  && bool_decide ((directive line).2 = js "*").

(** Every whitespace character of [t] is a plain space that is not
    followed by a whitespace character. *)
Fixpoint single_spaced (t : jsstring) : bool :=
  match t with
  | [] => true
  | x :: t' =>
      (negb (is_space x)
       || (x =? 32) && match t' with y :: _ => negb (is_space y) | [] => true end)
      && single_spaced t'
  end.

(** No whitespace character at either end of [t]. *)
Definition trimmed (t : jsstring) : bool :=
  match head t with Some x => negb (is_space x) | None => true end
  && match last t with Some x => negb (is_space x) | None => true end.

(** Every [<] of [t] is directly followed by [>] or has no [>] after it:
    there is nothing between angle brackets. *)
Fixpoint angles_closed (t : jsstring) : bool :=
  match t with
  | [] => true
  | x :: t' =>
      (negb (x =? LT)
       || match t' with y :: _ => y =? GT | [] => false end
       || bool_decide (GT ∉ t'))
      && angles_closed t'
  end.

(** The two replacements of [stripTags], by name. *)
Definition remove_tags (s : jsstring) : jsstring := Regex.replace_all false re_tag [] s.
Definition collapse_spaces (s : jsstring) : jsstring :=
  Regex.replace_all false re_spaces (js " ") s.

(** A text as [stripTags] leaves it: no tag, single-spaced, nothing at the
    ends. *)
Definition clean (t : jsstring) : bool :=
  angles_closed t && single_spaced t && trimmed t.

(** The deduplication of [extractData], from a list of links. *)
Definition unique_links (ls : list link) : list link := unique_loop ls ∅ [].

(** The address the handler works on, and its two requests. *)
Definition requested_url (query : option jsstring) : jsstring :=
  or_else (default [] query) default_target.
Definition robots_request (origin : jsstring) : request :=
  {| target := origin ++ js "/robots.txt"; agent := None |}.
Definition page_request (u : URL.t) : request :=
  {| target := URL.href u; agent := Some user_agent |}.

(** What must have happened for the handler to give the reply [r]. *)
Definition cause (URL_new : jsstring -> exc URL.t)
    (URL_resolve : jsstring -> jsstring -> exc jsstring)
    (fetch : request -> exc response) (query : option jsstring) (r : reply) : Prop :=
  match r with
  | InvalidUrl => exists e, URL_new (requested_url query) = Throw e
  | Blocked =>
      exists u robots,
        URL_new (requested_url query) = Ret u
        /\ fetchRobots fetch (URL.origin u) = Ret robots
        /\ Robots.allowed robots (tested_path u) = false
  | Upstream st txt =>
      exists u robots res,
        URL_new (requested_url query) = Ret u
        /\ fetchRobots fetch (URL.origin u) = Ret robots
        /\ Robots.allowed robots (tested_path u) = true
        /\ fetch (page_request u) = Ret res
        /\ ok res = false /\ st = status res /\ txt = statusText res
  | Scraped url delay data =>
      exists u robots res html,
        URL_new (requested_url query) = Ret u
        /\ fetchRobots fetch (URL.origin u) = Ret robots
        /\ Robots.allowed robots (tested_path u) = true
        /\ fetch (page_request u) = Ret res
        /\ ok res = true /\ body res = Ret html
        /\ extractData URL_resolve html (URL.origin u) = Ret data
        /\ url = URL.href u /\ delay = Robots.crawlDelay robots
  | Failed e =>
      exists u robots,
        URL_new (requested_url query) = Ret u
        /\ fetchRobots fetch (URL.origin u) = Ret robots
        /\ Robots.allowed robots (tested_path u) = true
        /\ (fetch (page_request u) = Throw e
            \/ exists res, fetch (page_request u) = Ret res
                           /\ ok res = true /\ body res = Throw e)
  end.

(** An anchor inside which another closing tag follows, and a heading with
    two closing tags of its level. *)
Definition nested_anchor : jsstring := js "<a href=/x>one</A>two</a>".
Definition twice_closed_heading : jsstring := js "<h2>one</h2>two</h2>".

(** Settles a decidable statement about concrete values by evaluating its
    decision procedure. *)
Ltac by_computation := apply (bool_decide_unpack _); vm_compute; exact I.

(** ** Further notions and inputs *)

(** A [User-agent] line whose value holds a colon, before a rule. *)
Definition star_colon_doc : jsstring :=
  unlines ["User-agent: *:x"; "Disallow: /p"]%string.



(** The name of the element whose tag starts a text: what stands after
    [<] up to whitespace, [/] or [>]. *)
Fixpoint name_run (s : jsstring) : jsstring :=
  match s with
  | c :: s' => if is_space c || (c =? SLASH) || (c =? GT) then [] else c :: name_run s'
  | [] => []
  end.
Definition element_name (s : jsstring) : jsstring :=
  match s with
  | c :: s' => if c =? LT then name_run s' else []
  | [] => []
  end.

(** An element that is no heading though its name begins with [h1]. *)
Definition misnamed_heading : jsstring := js "<h1x>a</h1>".

(** A second-level heading element with the text [b], and a page made of
    such elements, each followed by [sep]. *)
Definition h2_element (b : jsstring) : jsstring := js "<h2>" ++ b ++ js "</h2>".
Definition h2_page (sep : jsstring) (bodies : list jsstring) : jsstring :=
  mjoin ((fun b => h2_element b ++ sep) <$> bodies).

(** A text with a tag, a tab and a line break between its two letters. *)
Definition tabbed_text : jsstring := js "<b>a</b>" ++ [9; 10] ++ js "c".

(** * Properties *)

(** ** PolicyGate *)

Lemma startsWith_prefix (s d : jsstring) :
  startsWith s d = true <-> d `prefix_of` s.
Proof.
  revert s. induction d as [|x d IH]; intros s; simpl.
  - split; [intros _; apply prefix_nil | reflexivity].
  - destruct s as [|y s].
    + split; [discriminate | intros H; by apply prefix_nil_not in H].
    + rewrite andb_true_iff, N.eqb_eq, IH. split.
      * intros [-> H]. by apply prefix_cons.
      * intros H. split; [by apply prefix_cons_inv_1 in H | by apply prefix_cons_inv_2 in H].
Qed.

(** The closure blocks exactly when a non-empty entry is a prefix. *)
Lemma allowed_by_false (ds : list jsstring) (p : jsstring) :
  allowed_by ds p = false <-> exists d, d ∈ ds /\ d <> [] /\ d `prefix_of` p.
Proof.
  induction ds as [|d ds IH]; simpl.
  - split; [done | intros (d & H & _); by apply elem_of_nil in H].
  - case_bool_decide as Hd.
    + rewrite IH. split.
      * intros (d' & ? & ? & ?). exists d'. split_and!; [by right | done | done].
      * intros (d' & Hin & Hne & Hp). apply elem_of_cons in Hin as [-> | Hin]; [done|].
        by exists d'.
    + destruct (startsWith p d) eqn:Hs.
      * split; [intros _ | done]. exists d. split_and!; [by left | done |].
        by apply startsWith_prefix.
      * rewrite IH. split.
        -- intros (d' & ? & ? & ?). exists d'. split_and!; [by right | done | done].
        -- intros (d' & Hin & Hne & Hp). apply elem_of_cons in Hin as [-> | Hin].
           ++ apply startsWith_prefix in Hp. congruence.
           ++ by exists d'.
Qed.

(** One turn of the loop appends at most one entry, a non-empty one. *)
Lemma robots_line_disallows (st : pstate) (line : jsstring) :
  disallows (robots_line st line) = disallows st
  \/ exists v, v <> [] /\ disallows (robots_line st line) = disallows st ++ [v].
Proof.
  unfold robots_line.
  destruct (bool_decide (line = []) || startsWith line (js "#")); [by left|].
  destruct (directive line) as [k v].
  destruct (Regex.test_anchored true re_user_agent k); [by left|].
  destruct (negb (inStar st)); [by left|].
  destruct (Regex.test_anchored true re_disallow k).
  - case_bool_decide; [by left|]. right. by exists v.
  - destruct (Regex.test_anchored true re_crawl_delay k); [|by left].
    destruct (negb (isNaN (Number v))); by left.
Qed.

Lemma robots_loop_disallows (lines : list jsstring) (st : pstate) :
  exists more, disallows (foldl robots_line st lines) = disallows st ++ more
               /\ ([] ∉ more).
Proof.
  revert st. induction lines as [|line lines IH]; intros st; simpl.
  - exists []. split; [by rewrite app_nil_r | apply not_elem_of_nil].
  - destruct (IH (robots_line st line)) as (more & -> & Hm).
    destruct (robots_line_disallows st line) as [-> | (v & Hv & ->)].
    + by exists more.
    + exists (v :: more). split; [by rewrite <- app_assoc|].
      intros [? | ?]%elem_of_cons; [congruence | done].
Qed.

Lemma robots_parse_nonempty (txt : jsstring) : [] ∉ disallows (robots_parse txt).
Proof.
  unfold robots_parse.
  destruct (robots_loop_disallows (robots_lines txt) robots_start) as (more & -> & H).
  done.
Qed.

(** C1: for a parsed policy, [allowed] answers false exactly when an entry
    of the disallow sequence is a literal prefix of the path, and true when
    none is; the sequence holds no empty entry, and an empty entry in front
    of any sequence changes no answer. *)
Theorem allowed_iff_no_disallowed_prefix (txt p : jsstring) :
  let policy := robots_policy (robots_parse txt) in
  let ds := disallows (robots_parse txt) in
  (Robots.allowed policy p = false <-> exists d, d ∈ ds /\ d `prefix_of` p)
  /\ (Robots.allowed policy p = true <-> forall d, d ∈ ds -> ~ d `prefix_of` p)
  /\ ([] ∉ ds)
  /\ (forall ds' q, allowed_by ([] :: ds') q = allowed_by ds' q).
Proof.
  intros policy ds.
  assert (Hne : [] ∉ ds) by apply robots_parse_nonempty.
  assert (Hf : Robots.allowed policy p = false <-> exists d, d ∈ ds /\ d `prefix_of` p).
  { unfold policy. simpl. rewrite allowed_by_false. split.
    - intros (d & ? & ? & ?). by exists d.
    - intros (d & Hin & ?). exists d. split_and!; [done | | done].
      intros ->. done. }
  split_and!; [done | | done | done].
  rewrite <- not_false_iff_true, Hf. split.
  - intros H d Hin Hp. apply H. by exists d.
  - intros H (d & Hin & Hp). by apply (H d).
Qed.

(** C2: [fetchRobots] always returns and never throws; when the retrieval
    fails (unreachable, a status such as 404, an exception on the way) it
    returns the policy that allows every path and has no crawl delay. *)
Theorem fetchRobots_fails_open (fetch : request -> exc response) (origin : jsstring) :
  (exists r, fetchRobots fetch origin = Ret r)
  /\ (unavailable fetch origin ->
      exists r, fetchRobots fetch origin = Ret r
                /\ (forall p, Robots.allowed r p = true)
                /\ Robots.crawlDelay r = None).
Proof.
  unfold fetchRobots. split.
  - destruct (fetch _) as [res|e]; simpl; [|by eexists].
    destruct (ok res); simpl; [|by eexists].
    destruct (body res); simpl; by eexists.
  - intros [e He | res Hres Hok | res e Hres Hbody].
    + rewrite He. simpl. by exists permissive.
    + rewrite Hres. simpl. rewrite Hok. simpl. by exists permissive.
    + rewrite Hres. simpl. destruct (ok res); simpl; [rewrite Hbody; simpl|];
        by exists permissive.
Qed.

Lemma fetchRobots_fails_open_404 :
  ok {| status := 404; statusText := js "Not Found"; body := Ret [] |} = false
  /\ exists r, fetchRobots fetch_404 (js "https://example.com") = Ret r
               /\ (forall p, Robots.allowed r p = true)
               /\ Robots.crawlDelay r = None.
Proof.
  split; [reflexivity|].
  apply (fetchRobots_fails_open fetch_404 (js "https://example.com")).
  eapply NonSuccess; reflexivity.
Defined.

(** A test against an anchored literal succeeds on texts of its length
    only. *)
Lemma test_anchored_text_length (ci : bool) (t k : jsstring) :
  Regex.test_anchored ci (Regex.text t ++ [Regex.Eos]) k = true ->
  length k = length t.
Proof.
  unfold Regex.test_anchored. rewrite bool_decide_eq_true.
  generalize (@nil (nat * jsstring)) at 1 2. intros caps.
  revert k. induction t as [|c t IH]; intros k; simpl.
  - destruct k; [done | by intros [? ?]].
  - destruct k as [|x k]; [by intros [? ?]|].
    destruct (Regex.same ci c x); [|by intros [? ?]].
    intros H. simpl. f_equal. by apply IH.
Qed.


Lemma disallow_name_exclusive (k : jsstring) :
  Regex.test_anchored true re_disallow k = true ->
  Regex.test_anchored true re_user_agent k = false.
Proof.
  intros H%test_anchored_text_length.
  destruct (Regex.test_anchored true re_user_agent k) eqn:E; [|done].
  apply test_anchored_text_length in E. rewrite H in E. done.
Qed.



(** X20: the group flag, with the value as the parser takes it (the text
    between the first and the second colon, see X1).  On a line that is
    neither blank nor a comment, a [User-agent] directive sets the flag to
    whether that value is exactly [*] and changes nothing else; any other
    directive leaves the flag as it is, is ignored while the flag is down,
    and a [Disallow] with a value appends it while the flag is up.
    Whatever lines follow, the entries collected so far stay, as a prefix
    of the sequence: two universal groups accumulate in order of
    appearance. *)
Theorem universal_group_tracking (st : pstate) (line : jsstring)
    (lines : list jsstring) :
  let k := (directive line).1 in
  let v := (directive line).2 in
  (line <> [] -> startsWith line (js "#") = false ->
     (Regex.test_anchored true re_user_agent k = true ->
        inStar (robots_line st line) = bool_decide (v = js "*")
        /\ disallows (robots_line st line) = disallows st
        /\ crawlDelay (robots_line st line) = crawlDelay st)
     /\ (Regex.test_anchored true re_user_agent k = false ->
           inStar (robots_line st line) = inStar st
           /\ (inStar st = false -> robots_line st line = st)
           /\ (inStar st = true ->
               Regex.test_anchored true re_disallow k = true -> v <> [] ->
               disallows (robots_line st line) = disallows st ++ [v])))
  /\ disallows st `prefix_of` disallows (foldl robots_line st lines)
  /\ disallows (robots_parse two_groups_doc) = [js "/a"; js "/b"].
Proof.
  intros k v. split_and!.
  - intros Hne Hc. unfold robots_line.
    rewrite bool_decide_eq_false_2 by done. rewrite Hc. cbn [orb].
    subst k v. destruct (directive line) as [k v]. cbn [fst snd]. split.
    + intros ->. done.
    + intros ->. split_and!.
      * destruct (negb (inStar st)); [done|].
        destruct (Regex.test_anchored true re_disallow k).
        -- by case_bool_decide.
        -- destruct (Regex.test_anchored true re_crawl_delay k); [|done].
           by destruct (negb (isNaN (Number v))).
      * by intros ->.
      * intros -> -> Hv. simpl. by rewrite bool_decide_eq_false_2.
  - destruct (robots_loop_disallows lines st) as (more & -> & _).
    by apply prefix_app_r.
  - vm_compute. reflexivity.
Qed.

Lemma universal_group_tracking_example :
  disallows (robots_line {| inStar := true; disallows := [js "/x"]; crawlDelay := None |}
               (js "Disallow: /a")) = [js "/x"; js "/a"].
Proof.
  pose proof (universal_group_tracking
                {| inStar := true; disallows := [js "/x"]; crawlDelay := None |}
                (js "Disallow: /a") []) as (H & _ & _).
  destruct H as (_ & H); [discriminate | reflexivity |].
  destruct H as (_ & _ & H); [reflexivity|].
  apply H; [reflexivity | reflexivity | discriminate].
Defined.




(** C3 at a [User-agent] value with a colon: the value of the line
    [User-agent: *:x] is [*:x], not exactly [*], yet the parser, which
    cuts the value at the second colon, takes it for [*], opens the group
    and attributes the [Disallow] that follows, so that [/p] is blocked. *)
Theorem group_opened_by_value_cut_at_colon :
  directive (js "User-agent: *:x") = (js "User-agent", js "*")
  /\ inStar (robots_line robots_start (js "User-agent: *:x")) = true
  /\ disallows (robots_parse star_colon_doc) = [js "/p"]
  /\ Robots.allowed (robots_policy (robots_parse star_colon_doc)) (js "/p") = false.
Proof. split_and!; vm_compute; reflexivity. Qed.

(** C8 at a value with a colon: [split(':', 2)] cuts the line at every
    colon and keeps the first two pieces, so the value stops at the second
    colon and the entry stored is [/a], which also blocks [/ab]. *)
Theorem directive_value_stops_at_second_colon :
  directive (js "Disallow: /a:b") = (js "Disallow", js "/a")
  /\ disallows (robots_parse colon_value_doc) = [js "/a"]
  /\ Robots.allowed (robots_policy (robots_parse colon_value_doc)) (js "/ab") = false.
Proof.
  split_and!; vm_compute; reflexivity.
Qed.

(** ** The handler *)

Lemma fetchRobots_returns (fetch : request -> exc response) (origin : jsstring) :
  exists r, fetchRobots fetch origin = Ret r.
Proof.
  unfold fetchRobots.
  destruct (fetch _) as [res|e]; simpl; [|by eexists].
  destruct (ok res); simpl; [|by eexists].
  destruct (body res); simpl; by eexists.
Qed.

Lemma or_else_nil (a : jsstring) : or_else a [] = a.
Proof. by destruct a. Qed.

(** C10: for a target that parses, the path handed to the policy is the
    pathname followed by the query string, the handler answers 403 exactly
    when the policy rejects that path, and the fragment has no part in
    it. *)
Theorem robots_tested_on_pathname_and_search
    (URL_new : jsstring -> exc URL.t)
    (URL_resolve : jsstring -> jsstring -> exc jsstring)
    (fetch : request -> exc response) (query : option jsstring) (u : URL.t) :
  URL_new (or_else (default [] query) default_target) = Ret u ->
  tested_path u = URL.pathname u ++ URL.search u
  /\ (scrape URL_new URL_resolve fetch query = Ret Blocked <->
      exists robots, fetchRobots fetch (URL.origin u) = Ret robots
                     /\ Robots.allowed robots (URL.pathname u ++ URL.search u) = false)
  /\ (forall u', URL.pathname u' = URL.pathname u -> URL.search u' = URL.search u ->
                 tested_path u' = tested_path u).
Proof.
  intros Hu.
  assert (Hp : forall w, tested_path w = URL.pathname w ++ URL.search w).
  { intros w. unfold tested_path. by rewrite or_else_nil. }
  split_and!; [done | | intros u' H1 H2; by rewrite !Hp, H1, H2].
  unfold scrape. rewrite Hu, Hp.
  destruct (fetchRobots_returns fetch (URL.origin u)) as [r Hr]. rewrite Hr. simpl.
  destruct (Robots.allowed r (URL.pathname u ++ URL.search u)) eqn:Ha; simpl.
  - split.
    + intros H. exfalso.
      destruct (fetch _) as [res|e]; simpl in H; [|done].
      destruct (ok res); simpl in H; [|done].
      destruct (body res) as [html|e]; simpl in H; [|done].
      destruct (extractData URL_resolve html (URL.origin u)); simpl in H; done.
    + intros (r' & [= <-] & H). congruence.
  - split; [|done]. intros _. by exists r.
Qed.

Lemma robots_tested_on_pathname_and_search_query :
  scrape (fun _ => Ret (page_url (js "?q=1") (js "#top"))) resolve_simple
    (fetch_serving query_rule_doc) None = Ret Blocked.
Proof.
  pose proof (robots_tested_on_pathname_and_search
                (fun _ => Ret (page_url (js "?q=1") (js "#top"))) resolve_simple
                (fetch_serving query_rule_doc) None
                (page_url (js "?q=1") (js "#top")) eq_refl) as (_ & H & _).
  apply H. eexists. split; [reflexivity|]. vm_compute. reflexivity.
Defined.

(** ** PageExtractor *)

Lemma anchor_body_candidate (R : jsstring -> jsstring -> exc jsstring)
    (base : jsstring) (m : Regex.result) (links : list link) :
  anchor_body R base m links = Ret (links ++ option_list (candidate R base m)).
Proof.
  unfold anchor_body, candidate.
  destruct (R (Regex.group m 2) base); simpl; [done | by rewrite app_nil_r].
Qed.

(** The anchor loop returns the first 50 links that resolve. *)
Lemma anchor_loop_take (R : jsstring -> jsstring -> exc jsstring)
    (base : jsstring) (ms : list Regex.result) (links : list link) :
  (length links <= 50)%nat ->
  anchor_loop R base ms links = Ret (take 50 (links ++ omap (candidate R base) ms)).
Proof.
  revert links. induction ms as [|m ms IH]; intros links Hlen; simpl.
  - by rewrite app_nil_r, take_ge.
  - destruct (Nat.ltb_spec (length links) 50) as [Hlt | Hge].
    + rewrite anchor_body_candidate. simpl.
      destruct (candidate R base m) as [l|]; simpl.
      * rewrite IH by (rewrite length_app; simpl; lia).
        by rewrite <- app_assoc.
      * rewrite app_nil_r. by apply IH.
    + f_equal. symmetry. apply take_app_length'. lia.
Qed.

Lemma unique_loop_first_seen (ls : list link) (seen : gset jsstring)
    (earlier : list jsstring) (unique : list link) :
  (forall h, h ∈ seen <-> h ∈ earlier) ->
  (length unique < 10)%nat ->
  unique_loop ls seen unique = take 10 (unique ++ first_seen earlier ls).
Proof.
  revert seen earlier unique.
  induction ls as [|l ls IH]; intros seen earlier unique Hs Hlen;
    cbn [unique_loop first_seen].
  - rewrite app_nil_r, take_ge; [done | lia].
  - rewrite (bool_decide_ext _ (href l ∈ earlier)) by apply Hs.
    case_bool_decide as Hin; [by apply IH|].
    destruct (Nat.leb_spec 10 (length (unique ++ [l]))) as [Hge | Hlt].
    + rewrite length_app in Hge. simpl in Hge.
      replace (unique ++ l :: first_seen (href l :: earlier) ls)
        with ((unique ++ [l]) ++ first_seen (href l :: earlier) ls)
        by (by rewrite <- app_assoc).
      symmetry. apply take_app_length'. rewrite length_app. simpl. lia.
    + rewrite (IH _ (href l :: earlier)); [by rewrite <- app_assoc | | done].
      intros h. rewrite elem_of_union, elem_of_singleton, elem_of_cons, Hs. done.
Qed.

Lemma first_seen_fresh (earlier : list jsstring) (ls : list link) (l : link) :
  l ∈ first_seen earlier ls -> href l ∉ earlier.
Proof.
  revert earlier. induction ls as [|x ls IH]; intros earlier; simpl.
  - by intros ?%elem_of_nil.
  - case_bool_decide as Hin; [apply IH|].
    intros [-> | H]%elem_of_cons; [done|].
    apply IH in H. intros ?. apply H. by right.
Qed.

Lemma first_seen_NoDup (earlier : list jsstring) (ls : list link) :
  NoDup (href <$> first_seen earlier ls).
Proof.
  revert earlier. induction ls as [|x ls IH]; intros earlier; simpl.
  - constructor.
  - case_bool_decide as Hin; [apply IH|].
    rewrite fmap_cons. constructor; [|apply IH].
    intros (l & Hl & Hin')%list_elem_of_fmap.
    apply first_seen_fresh in Hin'. apply Hin'. rewrite Hl. by left.
Qed.

Lemma first_seen_sublist (earlier : list jsstring) (ls : list link) :
  first_seen earlier ls `sublist_of` ls.
Proof.
  revert earlier. induction ls as [|x ls IH]; intros earlier; simpl; [done|].
  case_bool_decide; [by apply sublist_cons | by apply sublist_skip].
Qed.

Lemma first_seen_first (earlier : list jsstring) (ls : list link) (l : link) :
  l ∈ first_seen earlier ls ->
  exists before after, ls = before ++ l :: after /\ href l ∉ (href <$> before).
Proof.
  revert earlier. induction ls as [|x ls IH]; intros earlier; simpl.
  - by intros ?%elem_of_nil.
  - case_bool_decide as Hin.
    + intros H. pose proof (first_seen_fresh _ _ _ H) as Hf.
      destruct (IH _ H) as (b & a & -> & Hb).
      exists (x :: b), a. split; [done|]. rewrite fmap_cons.
      intros [E | ?]%elem_of_cons; [|done]. apply Hf. by rewrite E.
    + intros [-> | H]%elem_of_cons.
      * exists [], ls. split; [done|]. simpl. apply not_elem_of_nil.
      * pose proof (first_seen_fresh _ _ _ H) as Hf.
        destruct (IH _ H) as (b & a & -> & Hb).
        exists (x :: b), a. split; [done|]. rewrite fmap_cons.
        intros [E | ?]%elem_of_cons; [|done]. apply Hf. rewrite E. by left.
Qed.

(** What [extractData] returns, loop by loop. *)
Lemma extractData_returns (R : jsstring -> jsstring -> exc jsstring)
    (html base : jsstring) :
  extractData R html base =
  Ret {| title := (fun m => stripTags (Regex.group m 1))
                    <$> Regex.first_match true re_title html;
         headings := heading_loop (Regex.exec_all true hRegex html) [];
         links := take 10 (first_seen []
                    (take 50 (omap (candidate R base) (Regex.exec_all true aRegex html)))) |}.
Proof.
  unfold extractData. rewrite anchor_loop_take by (simpl; lia). simpl.
  rewrite (unique_loop_first_seen _ ∅ [] []); [|set_solver|simpl; lia].
  simpl. by destruct (Regex.first_match true re_title html).
Qed.

(** C5: the links returned are those of the anchor loop filtered to the
    first one seen for each address and cut after 10: at most 10, with
    distinct addresses, in the order of the loop's list, and each one the
    first link of that list with its address, so with its text. *)
Theorem links_first_seen_capped (URL_resolve : jsstring -> jsstring -> exc jsstring)
    (html baseOrigin : jsstring) :
  exists x raw,
    extractData URL_resolve html baseOrigin = Ret x
    /\ anchor_loop URL_resolve baseOrigin (Regex.exec_all true aRegex html) [] = Ret raw
    /\ links x = take 10 (first_seen [] raw)
    /\ (length (links x) <= 10)%nat
    /\ NoDup (href <$> links x)
    /\ links x `sublist_of` raw
    /\ (forall l, l ∈ links x ->
        exists before after, raw = before ++ l :: after /\ href l ∉ (href <$> before)).
Proof.
  eexists _, _. split; [apply extractData_returns|].
  split; [apply anchor_loop_take; simpl; lia|]. simpl.
  set (raw := take 50 _).
  split_and!.
  - done.
  - rewrite length_take. lia.
  - eapply sublist_NoDup; [apply (first_seen_NoDup [] raw)|].
    apply fmap_sublist, sublist_take.
  - etrans; [apply sublist_take | apply first_seen_sublist].
  - intros l Hl. apply (first_seen_first [] raw).
    eapply elem_of_sublist; [done | apply sublist_take].
Qed.

(** C7, as the code has it: the anchor loop stops once 50 candidates have
    resolved and been collected; a candidate that does not resolve does not
    count.  Its list is the first 50 resolved candidates, whatever comes
    after them is not looked at, and deduplication then works on that
    list. *)
Theorem anchor_scan_stops_at_50_resolved
    (URL_resolve : jsstring -> jsstring -> exc jsstring) (html baseOrigin : jsstring) :
  let found := omap (candidate URL_resolve baseOrigin) (Regex.exec_all true aRegex html) in
  anchor_loop URL_resolve baseOrigin (Regex.exec_all true aRegex html) []
    = Ret (take 50 found)
  /\ (forall ms ms',
        (50 <= length (omap (candidate URL_resolve baseOrigin) ms))%nat ->
        anchor_loop URL_resolve baseOrigin (ms ++ ms') []
        = anchor_loop URL_resolve baseOrigin ms [])
  /\ exists x, extractData URL_resolve html baseOrigin = Ret x
               /\ links x = take 10 (first_seen [] (take 50 found)).
Proof.
  intros found. split_and!.
  - apply anchor_loop_take. simpl. lia.
  - intros ms ms' Hlen.
    rewrite !anchor_loop_take by (simpl; lia). simpl.
    rewrite omap_app, take_app_le by done. done.
  - eexists. split; [apply extractData_returns | done].
Qed.

Lemma anchor_scan_stops_at_50_resolved_example :
  anchor_loop resolve_simple example_origin
    (Regex.exec_all true aRegex fifty_good ++ Regex.exec_all true aRegex good_anchor) []
  = anchor_loop resolve_simple example_origin (Regex.exec_all true aRegex fifty_good) [].
Proof.
  pose proof (anchor_scan_stops_at_50_resolved resolve_simple [] example_origin)
    as (_ & H & _).
  apply H. vm_compute. lia.
Defined.

(** C7 as stated fails: after 50 candidates that do not resolve, the 51st
    is still examined and its link is returned. *)
Lemma anchor_scan_goes_past_50_candidates :
  length (Regex.exec_all true aRegex fifty_bad_one_good) = 51%nat
  /\ omap (candidate resolve_simple example_origin)
       (take 50 (Regex.exec_all true aRegex fifty_bad_one_good)) = []
  /\ extractData resolve_simple fifty_bad_one_good example_origin
     = Ret {| title := None; headings := [];
              links := [{| href := js "https://example.com/ok"; text := js "y" |}] |}.
Proof.
  split_and!; vm_compute; reflexivity.
Qed.

(** C9: [extractData] returns for every markup and base, with an absent
    title, no heading and no link when the respective pattern finds
    nothing; an anchor whose address does not resolve adds no entry and the
    loop goes on with the anchors after it. *)
Theorem extractData_never_throws
    (URL_resolve : jsstring -> jsstring -> exc jsstring) (html baseOrigin : jsstring) :
  (exists x, extractData URL_resolve html baseOrigin = Ret x
     /\ (Regex.first_match true re_title html = None -> title x = None)
     /\ (Regex.exec_all true hRegex html = [] -> headings x = [])
     /\ (Regex.exec_all true aRegex html = [] -> links x = []))
  /\ (forall m ms links e,
        URL_resolve (Regex.group m 2) baseOrigin = Throw e ->
        anchor_loop URL_resolve baseOrigin (m :: ms) links
        = anchor_loop URL_resolve baseOrigin ms links)
  /\ anchor_loop URL_resolve baseOrigin (Regex.exec_all true aRegex html) []
     = Ret (take 50 (omap (candidate URL_resolve baseOrigin)
                       (Regex.exec_all true aRegex html))).
Proof.
  split_and!.
  - eexists. split; [apply extractData_returns|]. simpl. split_and!.
    + by intros ->.
    + by intros ->.
    + by intros ->.
  - intros m ms links e He. cbn [anchor_loop].
    destruct (Nat.ltb_spec (length links) 50) as [Hlt | Hge].
    + unfold anchor_body. rewrite He. done.
    + destruct ms as [|m' ms]; [done|]. cbn [anchor_loop].
      destruct (Nat.ltb_spec (length links) 50); [lia | done].
  - apply anchor_loop_take. simpl. lia.
Qed.

Lemma extractData_never_throws_example :
  (exists x, extractData resolve_simple [] example_origin = Ret x
             /\ title x = None /\ headings x = [] /\ links x = [])
  /\ anchor_loop resolve_simple example_origin
       (Regex.exec_all true aRegex (bad_anchor ++ good_anchor)) []
     = Ret [{| href := js "https://example.com/ok"; text := js "y" |}].
Proof.
  split.
  - destruct (extractData_never_throws resolve_simple [] example_origin)
      as ((x & Hx & Ht & Hh & Hl) & _).
    exists x. split_and!; [done | by apply Ht | by apply Hh | by apply Hl].
  - destruct (extractData_never_throws resolve_simple (bad_anchor ++ good_anchor)
                example_origin) as (_ & H & _).
    let ms := eval vm_compute in (Regex.exec_all true aRegex (bad_anchor ++ good_anchor)) in
    change (Regex.exec_all true aRegex (bad_anchor ++ good_anchor)) with ms.
    erewrite H by reflexivity. vm_compute. reflexivity.
Defined.

(** *** What a match of the heading pattern looks like *)

Lemma rep_greedy_inv {R} (p : N -> bool) (lo : nat) (hi : option nat)
    (k : jsstring -> option R) (s : jsstring) (r : R) :
  Regex.rep_greedy p lo hi k s = Some r ->
  exists pre post, s = pre ++ post /\ forallb p pre = true
                   /\ (lo <= length pre)%nat /\ k post = Some r.
Proof.
  revert lo hi. induction s as [|c s IH]; intros lo hi; cbn [Regex.rep_greedy].
  - destruct lo; [|done]. intros H. exists [], []. split_and!; done.
  - assert (Hstop : match lo with O => k (c :: s) | S _ => None end = Some r ->
                    exists pre post, c :: s = pre ++ post /\ forallb p pre = true
                                     /\ (lo <= length pre)%nat /\ k post = Some r).
    { destruct lo; [|done]. intros H. exists [], (c :: s). split_and!; done. }
    destruct (negb (Regex.spent hi) && p c) eqn:E; [|done].
    destruct (Regex.rep_greedy p (pred lo) (pred <$> hi) k s) as [r'|] eqn:Er; [|done].
    intros [= ->]. apply IH in Er as (pre & post & -> & Hp & Hlo & Hk).
    apply andb_true_iff in E as [_ Hc].
    exists (c :: pre), post. split_and!; [done | by simpl; rewrite Hc | simpl; lia | done].
Qed.

Lemma rep_lazy_inv {R} (p : N -> bool) (lo : nat) (hi : option nat)
    (k : jsstring -> option R) (s : jsstring) (r : R) :
  Regex.rep_lazy p lo hi k s = Some r ->
  exists pre post, s = pre ++ post /\ forallb p pre = true
                   /\ (lo <= length pre)%nat /\ k post = Some r.
Proof.
  revert lo hi. induction s as [|c s IH]; intros lo hi; cbn [Regex.rep_lazy].
  - destruct lo; [|done]. destruct (k []) eqn:Ek; [|done].
    intros [= ->]. exists [], []. split_and!; done.
  - assert (Hmore : (if negb (Regex.spent hi) && p c
                     then Regex.rep_lazy p (pred lo) (pred <$> hi) k s else None) = Some r ->
                    exists pre post, c :: s = pre ++ post /\ forallb p pre = true
                                     /\ (lo <= length pre)%nat /\ k post = Some r).
    { destruct (negb (Regex.spent hi) && p c) eqn:E; [|done].
      intros (pre & post & -> & Hp & Hlo & Hk)%IH.
      apply andb_true_iff in E as [_ Hc].
      exists (c :: pre), post.
      split_and!; [done | by simpl; rewrite Hc | simpl; lia | done]. }
    destruct lo; [|done].
    destruct (k (c :: s)) eqn:Ek; [|done].
    intros [= ->]. exists [], (c :: s). split_and!; done.
Qed.

(** A character that equals, up to case, one that is not a letter is that
    character. *)
Lemma same_not_letter (c x : N) :
  (c < 65 \/ 90 < c) -> (c < 97 \/ 122 < c) ->
  Regex.same true c x = true -> x = c.
Proof.
  intros H1 H2 H. apply N.eqb_eq in H. revert H. unfold Regex.canon.
  destruct (N.leb_spec 97 c), (N.leb_spec c 122), (N.leb_spec 97 x),
    (N.leb_spec x 122); simpl; lia.
Qed.

(** A character that equals [h] up to case is [h] or [H]. *)
Lemma same_letter_h (x : N) :
  Regex.same true 104 x = true -> x = 104 \/ x = 72.
Proof.
  intros H. apply N.eqb_eq in H. revert H. unfold Regex.canon.
  destruct (N.leb_spec 97 x), (N.leb_spec x 122); simpl; lia.
Qed.

Lemma same_sym_letter_h (h x : N) :
  h = 104 \/ h = 72 -> Regex.same true h x = true -> x = 104 \/ x = 72.
Proof.
  intros [-> | ->]; [apply same_letter_h|].
  intros H. apply N.eqb_eq in H. revert H. unfold Regex.canon.
  destruct (N.leb_spec 97 x), (N.leb_spec x 122); simpl; lia.
Qed.

Lemma forallb_not_gt (attrs : jsstring) : forallb not_gt attrs = true -> GT ∉ attrs.
Proof.
  induction attrs as [|c attrs IH]; simpl; [intros _; apply not_elem_of_nil|].
  intros [Hc H]%andb_true_iff. intros [E | ?]%elem_of_cons; [|by apply IH].
  subst c. done.
Qed.

(** A match of [hRegex] is an opening tag [<hN ...>], a body, and the
    closing tag [</hN>] with the same digit [N]. *)
Lemma hRegex_shape (s rest : jsstring) (caps : list (nat * jsstring)) :
  Regex.run true hRegex [] [] s = Some (caps, rest) ->
  exists h d attrs body h',
    s = (LT :: h :: d :: attrs ++ GT :: body ++ [LT; SLASH; h'; d; GT]) ++ rest
    /\ (h = 104 \/ h = 72) /\ (h' = 104 \/ h' = 72)
    /\ (d = 49 \/ d = 50 \/ d = 51)
    /\ (GT ∉ attrs)
    /\ caps = [(2%nat, body); (1%nat, [h; d])].
Proof.
  unfold hRegex. cbn [Regex.run].
  destruct s as [|x s]; [done|].
  destruct (Regex.same true LT x) eqn:E1; [|done].
  apply same_not_letter in E1; [|unfold LT; lia..]. subst x.
  destruct s as [|h s]; [done|].
  destruct (Regex.same true 104 h) eqn:E2; [|done].
  apply same_letter_h in E2.
  destruct s as [|d s]; [done|].
  destruct (one_to_three d) eqn:E3; [|done].
  assert (Hd : 49 <= d <= 51).
  { unfold one_to_three in E3. apply andb_true_iff in E3 as [?%N.leb_le ?%N.leb_le]. lia. }
  intros (attrs & s1 & -> & Hattrs & _ & H)%rep_greedy_inv.
  destruct s1 as [|x s1]; [done|].
  destruct (Regex.same true GT x) eqn:E4; [|done].
  apply same_not_letter in E4; [|unfold GT; lia..]. subst x.
  apply rep_lazy_inv in H as (body & s2 & -> & _ & _ & H).
  destruct s2 as [|x s2]; [done|].
  destruct (Regex.same true LT x) eqn:E5; [|done].
  apply same_not_letter in E5; [|unfold LT; lia..]. subst x.
  destruct s2 as [|x s2]; [done|].
  destruct (Regex.same true SLASH x) eqn:E6; [|done].
  apply same_not_letter in E6; [|unfold SLASH; lia..]. subst x.
  cbn [Regex.cap_lookup Nat.eqb Regex.captured] in H.
  replace (length (h :: d :: attrs ++ GT :: body ++ LT :: SLASH :: s2)
           - length (attrs ++ GT :: body ++ LT :: SLASH :: s2))%nat with 2%nat in H
    by (simpl; lia).
  cbn [take] in H. rewrite take_0 in H. cbn [Regex.eat] in H.
  destruct s2 as [|h' s2]; [done|].
  destruct (Regex.same true h h') eqn:E7; [|done].
  apply (same_sym_letter_h h h' E2) in E7.
  destruct s2 as [|d' s2]; [done|].
  destruct (Regex.same true d d') eqn:E8; [|done].
  apply same_not_letter in E8; [|lia..]. subst d'.
  destruct s2 as [|x s2]; [done|].
  destruct (Regex.same true GT x) eqn:E9; [|done].
  apply same_not_letter in E9; [|unfold GT; lia..]. subst x.
  injection H as <- <-.
  exists h, d, attrs, body, h'. split_and!.
  - simpl. do 3 f_equal. rewrite <- !app_assoc. simpl. rewrite <- !app_assoc. done.
  - done.
  - done.
  - lia.
  - by apply forallb_not_gt.
  - do 2 f_equal. apply take_app_length'. rewrite length_app. simpl. lia.
Qed.

(** *** The successive matches *)

Lemma match_at_index (ci : bool) (re : list Regex.atom) (pos : nat)
    (s : jsstring) (m : Regex.result) :
  Regex.match_at ci re pos s = Some m -> Regex.index m = pos.
Proof.
  unfold Regex.match_at. destruct (Regex.run ci re [] [] s) as [[caps rest]|]; [|done].
  by intros [= <-].
Qed.

(** Every match found by the scan is the match of the pattern at some
    position of the text. *)
Lemma scan_elem (ci : bool) (re : list Regex.atom) (skip pos : nat)
    (s : jsstring) (m : Regex.result) :
  m ∈ Regex.scan ci re skip pos s ->
  exists i, (i <= length s)%nat
            /\ Regex.match_at ci re (pos + i) (drop i s) = Some m.
Proof.
  revert skip pos. induction s as [|c s IH]; intros skip pos; cbn [Regex.scan].
  - destruct skip; [|by intros ?%elem_of_nil].
    destruct (Regex.match_at ci re pos []) as [m0|] eqn:E; [|by intros ?%elem_of_nil].
    intros [-> | ?%elem_of_nil]%elem_of_cons; [|done].
    exists 0%nat. split; [done|]. by rewrite Nat.add_0_r.
  - assert (Htail : forall n, m ∈ Regex.scan ci re n (S pos) s ->
                    exists i, (i <= length (c :: s))%nat
                              /\ Regex.match_at ci re (pos + i) (drop i (c :: s)) = Some m).
    { intros n (i & Hi & Hm)%IH. exists (S i). split; [simpl; lia|].
      by rewrite Nat.add_succ_r. }
    destruct skip; [|apply Htail].
    destruct (Regex.match_at ci re pos (c :: s)) as [m0|] eqn:E; [|apply Htail].
    intros [-> | H]%elem_of_cons; [|by eapply Htail].
    exists 0%nat. split; [simpl; lia|]. by rewrite Nat.add_0_r.
Qed.

Lemma scan_from (ci : bool) (re : list Regex.atom) (skip pos : nat) (s : jsstring) :
  Forall (fun m => (pos + skip <= Regex.index m)%nat) (Regex.scan ci re skip pos s).
Proof.
  revert skip pos. induction s as [|c s IH]; intros skip pos; cbn [Regex.scan].
  - destruct skip; [|constructor].
    destruct (Regex.match_at ci re pos []) as [m0|] eqn:E; [|constructor].
    apply match_at_index in E. constructor; [lia | constructor].
  - destruct skip.
    + destruct (Regex.match_at ci re pos (c :: s)) as [m0|] eqn:E.
      * apply match_at_index in E. constructor; [lia|].
        eapply Forall_impl; [apply IH|]. simpl. intros; lia.
      * eapply Forall_impl; [apply IH|]. simpl. intros; lia.
    + eapply Forall_impl; [apply IH|]. simpl. intros; lia.
Qed.

(** Successive matches come in the order of the text and do not overlap. *)
Lemma scan_ordered (ci : bool) (re : list Regex.atom) (skip pos : nat) (s : jsstring) :
  StronglySorted
    (fun m1 m2 => (Regex.index m1 + length (Regex.whole m1) <= Regex.index m2)%nat)
    (Regex.scan ci re skip pos s).
Proof.
  revert skip pos. induction s as [|c s IH]; intros skip pos; cbn [Regex.scan].
  - destruct skip; [|constructor].
    destruct (Regex.match_at ci re pos []) as [m0|]; repeat constructor.
  - destruct skip; [|apply IH].
    destruct (Regex.match_at ci re pos (c :: s)) as [m0|] eqn:E; [|apply IH].
    apply match_at_index in E. constructor; [apply IH|].
    eapply Forall_impl; [apply scan_from|]. simpl. intros; lia.
Qed.

(** The heading loop returns the first 5 bodies, stripped. *)
Lemma heading_loop_take (ms : list Regex.result) (hs : list jsstring) :
  (length hs <= 5)%nat ->
  heading_loop ms hs
  = take 5 (hs ++ ((fun m => stripTags (Regex.group m 2)) <$> ms)).
Proof.
  revert hs. induction ms as [|m ms IH]; intros hs Hlen; cbn [heading_loop fmap list_fmap].
  - by rewrite app_nil_r, take_ge.
  - destruct (Nat.ltb_spec (length hs) 5) as [Hlt | Hge].
    + rewrite IH by (rewrite length_app; simpl; lia). by rewrite <- app_assoc.
    + symmetry. apply take_app_length'. lia.
Qed.

(** *** The properties at concrete inputs *)

Lemma allowed_iff_no_disallowed_prefix_query :
  Robots.allowed (robots_policy (robots_parse query_rule_doc)) (js "/p?q=1") = false.
Proof.
  destruct (allowed_iff_no_disallowed_prefix query_rule_doc (js "/p?q=1")) as (H & _).
  apply H. exists (js "/p?q"). split.
  - replace (disallows (robots_parse query_rule_doc)) with [js "/p?q"]
      by (vm_compute; reflexivity).
    by left.
  - exists (js "=1"). reflexivity.
Defined.

Lemma links_first_seen_capped_twice :
  exists x, extractData resolve_simple twice_linked example_origin = Ret x
            /\ links x = [{| href := js "https://example.com/ok"; text := js "first" |}].
Proof.
  destruct (links_first_seen_capped resolve_simple twice_linked example_origin)
    as (x & raw & Hx & Hraw & Hlinks & _).
  exists x. split; [done|]. rewrite Hlinks.
  vm_compute in Hraw. injection Hraw as <-. vm_compute. reflexivity.
Defined.

(** ** The model at the inputs of the specification's examples *)

Example Number_examples :
  Number (js "10") = Fin 10 /\ Number (js "1.5e2") = Fin 150
  /\ Number (js "0x1F") = Fin 31 /\ Number [] = Fin 0
  /\ Number (js "abc") = NaN /\ Number (js "-Infinity") = Inf true
  /\ Number (js "1e") = NaN /\ Number (js "-0x10") = NaN.
Proof. repeat split; vm_compute; reflexivity. Qed.

(** The value is rounded to binary64: too large a literal gives an
    infinity, too small a one a zero, and an integer above 2^53 its
    nearest neighbour. *)
Example Number_rounds_to_binary64 :
  Number (js "1e400") = Inf false /\ Number (js "-1e400") = Inf true
  /\ Number (js "1e-400") = Fin 0 /\ Number (js "-1e-400") = NegZero
  /\ Number (js "-0") = NegZero
  /\ Number (js "9007199254740993") = Fin 9007199254740992
  /\ Number (js "9007199254740995") = Fin 9007199254740996
  /\ Number (js "0.1") = Fin (3602879701896397 # 36028797018963968)
  /\ Number (js "1.7976931348623159e308") = Inf false
  /\ Number (js "1.7976931348623158e308") = Fin (inject_Z (2 ^ 1024 - 2 ^ 971))
  /\ Number (js "3e-324") = Number (js "5e-324")
  /\ Number (js "2e-324") = Fin 0.
Proof. repeat split; vm_compute; reflexivity. Qed.

Example title_is_stripped_and_collapsed :
  title <$> extractData resolve_simple (js "<title>  Hello   World </title>") example_origin
  = Ret (Some (js "Hello World")).
Proof. vm_compute. reflexivity. Qed.

Example stripTags_example :
  stripTags (js "  a <b>x</b>   y <<>> <c ") = js "a x y > <c".
Proof. vm_compute. reflexivity. Qed.

(** Of several [href=] in one tag the pattern takes the last, a quoted
    value must be closed by the same quote, and the tag name needs
    whitespace after it. *)
Example aRegex_examples :
  (fun m => Regex.group m 2)
    <$> Regex.exec_all true aRegex
          (js "<a title=href=/h HREF=/i>I</A><a href='/g>G</a><ahref=/f>F</a>")
  = [js "/i"].
Proof. vm_compute. reflexivity. Qed.

Example relative_href_resolves :
  links <$> extractData resolve_simple (js "<a href='/a/b'>t</a>") example_origin
  = Ret [{| href := js "https://example.com/a/b"; text := js "t" |}].
Proof. vm_compute. reflexivity. Qed.

Example disallowed_page_is_blocked :
  scrape (fun _ => Ret (page_url [] [])) resolve_simple
    (fetch_serving (unlines ["User-agent: *"; "Disallow: /p"]%string)) None
  = Ret Blocked.
Proof. vm_compute. reflexivity. Qed.

Example upstream_error_is_echoed :
  scrape (fun _ => Ret (page_url [] [])) resolve_simple
    (fun r => match agent r with
              | None => fetch_404 r
              | Some _ => Ret {| status := 500; statusText := js "Oops"; body := Ret [] |}
              end) None
  = Ret (Upstream 500 (js "Oops")).
Proof. vm_compute. reflexivity. Qed.

(** * Further properties of the code *)

(** ** Lines and directives *)

Lemma split_on_absent (sep : N) (a : jsstring) :
  sep ∉ a -> split_on sep a = [a].
Proof.
  induction a as [|c a IH]; [done|]. intros H. simpl.
  apply not_elem_of_cons in H as [Hc Ha].
  destruct (N.eqb_spec c sep) as [-> | _]; [done|]. by rewrite IH.
Qed.

Lemma split_on_first (sep : N) (a s : jsstring) :
  sep ∉ a -> split_on sep (a ++ sep :: s) = a :: split_on sep s.
Proof.
  induction a as [|c a IH]; intros H; simpl.
  - by rewrite N.eqb_refl.
  - apply not_elem_of_cons in H as [Hc Ha].
    destruct (N.eqb_spec c sep) as [-> | _]; [done|]. by rewrite IH.
Qed.

(** X1: the directive name is the text before the first colon and the
    value the text between the first and the second colon, both trimmed;
    what follows a second colon is dropped, and a line without a colon has
    the empty value. *)
Theorem directive_between_colons (a b rest : jsstring) :
  COLON ∉ a -> COLON ∉ b ->
  directive a = (trim a, [])
  /\ directive (a ++ COLON :: b) = (trim a, trim b)
  /\ directive (a ++ COLON :: b ++ COLON :: rest) = (trim a, trim b).
Proof.
  intros Ha Hb. unfold directive, split_limit. split_and!.
  - by rewrite split_on_absent.
  - by rewrite split_on_first, split_on_absent.
  - by rewrite !split_on_first.
Qed.

Lemma directive_between_colons_example :
  directive (js "Disallow : /wiki/Special:Search # all")
  = (js "Disallow", js "/wiki/Special").
Proof.
  destruct (directive_between_colons (js "Disallow ") (js " /wiki/Special")
              (js "Search # all")) as (_ & _ & H).
  - by_computation.
  - by_computation.
  - exact H.
Defined.

Lemma run_text_eos (ci : bool) (t k : jsstring) (opens caps : list (nat * jsstring)) :
  is_Some (Regex.run ci (Regex.text t ++ [Regex.Eos]) opens caps k)
  <-> Regex.canon ci <$> k = Regex.canon ci <$> t.
Proof.
  revert k. induction t as [|c t IH]; intros k; simpl.
  - destruct k; simpl; split; try done; by intros [? ?].
  - destruct k as [|x k]; simpl.
    + split; [by intros [? ?] | done].
    + unfold Regex.same. destruct (N.eqb_spec (Regex.canon ci c) (Regex.canon ci x)) as [E | E].
      * rewrite IH. split; [intros H; f_equal; [by symmetry | exact H]
                           | intros [= _ H]; exact H].
      * split; [by intros [? ?] | intros [= E' _]; by rewrite E' in E].
Qed.

(** X2: a directive name is recognised exactly when it is the name up to
    the case of its ASCII letters. *)
Theorem directive_names_ignore_case (k : jsstring) :
  (Regex.test_anchored true re_user_agent k = true
   <-> Regex.canon true <$> k = js "USER-AGENT")
  /\ (Regex.test_anchored true re_disallow k = true
      <-> Regex.canon true <$> k = js "DISALLOW")
  /\ (Regex.test_anchored true re_crawl_delay k = true
      <-> Regex.canon true <$> k = js "CRAWL-DELAY").
Proof.
  unfold Regex.test_anchored, re_user_agent, re_disallow, re_crawl_delay.
  rewrite !bool_decide_eq_true, !run_text_eos. done.
Qed.

Lemma robots_line_ignorable (st : pstate) (line : jsstring) :
  ignorable line = true -> robots_line st line = st.
Proof.
  unfold ignorable, robots_line.
  destruct (bool_decide (line = []) || startsWith line (js "#")); [done|].
  destruct (directive line) as [k v]. simpl.
  intros [Hk Hv]%andb_true_iff. rewrite (disallow_name_exclusive k Hk), Hk, Hv.
  by destruct (negb (inStar st)).
Qed.

(** X3: a blank line, a comment line or a [Disallow] with an empty value
    changes nothing: taking such a line out of a document leaves the parsed
    state as it is. *)
Theorem ignorable_line_can_be_removed (st : pstate) (before after : list jsstring)
    (line : jsstring) :
  ignorable line = true ->
  foldl robots_line st (before ++ line :: after)
  = foldl robots_line st (before ++ after).
Proof.
  intros H. rewrite !foldl_app. simpl. by rewrite robots_line_ignorable.
Qed.

Lemma ignorable_line_can_be_removed_example :
  foldl robots_line robots_start [js "User-agent: *"; js "DISALLOW :"; js "Disallow: /x"]
  = foldl robots_line robots_start [js "User-agent: *"; js "Disallow: /x"].
Proof.
  apply (ignorable_line_can_be_removed robots_start [js "User-agent: *"]
           [js "Disallow: /x"] (js "DISALLOW :")).
  vm_compute. reflexivity.
Defined.

Lemma robots_line_outside_group (st : pstate) (line : jsstring) :
  inStar st = false -> opens_group line = false -> robots_line st line = st.
Proof.
  unfold opens_group, robots_line. intros Hin.
  destruct (bool_decide (line = []) || startsWith line (js "#")); [done|].
  destruct (directive line) as [k v]. simpl.
  destruct (Regex.test_anchored true re_user_agent k); simpl.
  - intros ->. destruct st; simpl in *; by subst.
  - by rewrite Hin.
Qed.

(** X4: a document in which no line opens the universal group yields the
    policy that allows every path and has no crawl delay, whatever rules it
    holds for other crawlers. *)
Theorem no_universal_group_allows_all (txt : jsstring) :
  Forall (fun line => opens_group line = false) (robots_lines txt) ->
  robots_parse txt = robots_start
  /\ (forall p, Robots.allowed (robots_policy (robots_parse txt)) p = true)
  /\ Robots.crawlDelay (robots_policy (robots_parse txt)) = None.
Proof.
  intros H.
  assert (E : robots_parse txt = robots_start).
  { unfold robots_parse. induction H as [|line lines Hl _ IH]; [done|].
    simpl. by rewrite robots_line_outside_group. }
  rewrite E. done.
Qed.

Lemma no_universal_group_allows_all_example :
  Robots.allowed
    (robots_policy (robots_parse (unlines ["User-agent: bot"; "Disallow: /"]%string)))
    (js "/any/path") = true.
Proof.
  destruct (no_universal_group_allows_all
              (unlines ["User-agent: bot"; "Disallow: /"]%string)) as (_ & H & _).
  - by_computation.
  - apply H.
Defined.

Lemma directive_names_ignore_case_example :
  Regex.test_anchored true re_disallow (js "dIsAlLoW") = true.
Proof.
  destruct (directive_names_ignore_case (js "dIsAlLoW")) as (_ & H & _).
  apply H. reflexivity.
Defined.

Lemma split_lines_from_last (cur l : jsstring) :
  LF ∉ l -> CR ∉ l -> split_lines_from cur l = [cur ++ l].
Proof.
  revert cur. induction l as [|c l IH]; intros cur Hlf Hcr; simpl.
  - by rewrite app_nil_r.
  - apply not_elem_of_cons in Hlf as [Hc1 Hlf]. apply not_elem_of_cons in Hcr as [Hc2 Hcr].
    destruct (N.eqb_spec c LF) as [-> | _]; [done|].
    destruct (N.eqb_spec c CR) as [-> | _]; [done|]. simpl.
    rewrite IH by done. rewrite <- app_assoc. by destruct l.
Qed.

Lemma split_lines_from_lf (cur l rest : jsstring) :
  LF ∉ l -> CR ∉ l ->
  split_lines_from cur (l ++ LF :: rest) = (cur ++ l) :: split_lines_from [] rest.
Proof.
  revert cur. induction l as [|c l IH]; intros cur Hlf Hcr; simpl.
  - by rewrite app_nil_r.
  - apply not_elem_of_cons in Hlf as [Hc1 Hlf]. apply not_elem_of_cons in Hcr as [Hc2 Hcr].
    destruct (N.eqb_spec c LF) as [-> | _]; [done|].
    destruct (N.eqb_spec c CR) as [-> | _]; [done|]. simpl.
    rewrite IH by done. rewrite <- app_assoc.
    by destruct (l ++ LF :: rest).
Qed.

Lemma split_lines_from_crlf (cur l rest : jsstring) :
  LF ∉ l -> CR ∉ l ->
  split_lines_from cur (l ++ CR :: LF :: rest) = (cur ++ l) :: split_lines_from [] rest.
Proof.
  revert cur. induction l as [|c l IH]; intros cur Hlf Hcr; simpl.
  - by rewrite app_nil_r.
  - apply not_elem_of_cons in Hlf as [Hc1 Hlf]. apply not_elem_of_cons in Hcr as [Hc2 Hcr].
    destruct (N.eqb_spec c LF) as [-> | _]; [done|].
    destruct (N.eqb_spec c CR) as [-> | _]; [done|]. simpl.
    rewrite IH by done. rewrite <- app_assoc.
    by destruct (l ++ CR :: LF :: rest).
Qed.

(** X5: lines that hold no line feed and no carriage return come back from
    the split of their join, whether they are joined by LF or by CR LF; a
    document parses to the same state with either line ending. *)
Theorem line_endings_do_not_matter (ls : list jsstring) :
  ls <> [] ->
  Forall (fun l => (LF ∉ l) /\ (CR ∉ l)) ls ->
  split_lines (join_with [LF] ls) = ls
  /\ split_lines (join_with [CR; LF] ls) = ls
  /\ robots_parse (join_with [CR; LF] ls) = robots_parse (join_with [LF] ls).
Proof.
  intros Hne H. destruct ls as [|l ls]; [done|]. clear Hne.
  assert (H1 : split_lines (join_with [LF] (l :: ls)) = l :: ls).
  { unfold split_lines. revert l H. induction ls as [|l' ls IH]; intros l H.
    - apply Forall_cons in H as [[Hlf Hcr] _]. by apply split_lines_from_last.
    - apply Forall_cons in H as [[Hlf Hcr] H].
      change (join_with [LF] (l :: l' :: ls))
        with (l ++ LF :: join_with [LF] (l' :: ls)).
      rewrite split_lines_from_lf by done. by rewrite IH. }
  assert (H2 : split_lines (join_with [CR; LF] (l :: ls)) = l :: ls).
  { unfold split_lines. clear H1. revert l H. induction ls as [|l' ls IH]; intros l H.
    - apply Forall_cons in H as [[Hlf Hcr] _]. by apply split_lines_from_last.
    - apply Forall_cons in H as [[Hlf Hcr] H].
      change (join_with [CR; LF] (l :: l' :: ls))
        with (l ++ CR :: LF :: join_with [CR; LF] (l' :: ls)).
      rewrite split_lines_from_crlf by done. by rewrite IH. }
  split_and!; [done | done |].
  unfold robots_parse, robots_lines. by rewrite H1, H2.
Qed.

Lemma line_endings_do_not_matter_example :
  robots_parse (join_with [CR; LF] [js "User-agent: *"; js "Disallow: /p"; []])
  = robots_parse (join_with [LF] [js "User-agent: *"; js "Disallow: /p"; []]).
Proof.
  apply (line_endings_do_not_matter [js "User-agent: *"; js "Disallow: /p"; []]).
  - discriminate.
  - by_computation.
Defined.

(** ** The policy *)

Lemma allowed_by_app (ds ds' : list jsstring) (p : jsstring) :
  allowed_by (ds ++ ds') p = allowed_by ds p && allowed_by ds' p.
Proof.
  induction ds as [|d ds IH]; simpl; [done|].
  case_bool_decide; [done|]. by destruct (startsWith p d).
Qed.

Lemma allowed_by_extension (ds : list jsstring) (p q : jsstring) :
  allowed_by ds p = false -> allowed_by ds (p ++ q) = false.
Proof.
  rewrite !allowed_by_false. intros (d & Hin & Hne & Hp).
  exists d. split_and!; [done | done | by apply prefix_app_r].
Qed.

Lemma fetchRobots_cases (fetch : request -> exc response) (origin : jsstring)
    (r : Robots.t) :
  fetchRobots fetch origin = Ret r ->
  r = permissive \/ exists txt, r = robots_policy (robots_parse txt).
Proof.
  unfold fetchRobots.
  destruct (fetch _) as [res|e]; simpl; [|intros [= <-]; by left].
  destruct (ok res); simpl; [|intros [= <-]; by left].
  destruct (body res) as [txt|e]; simpl; intros [= <-]; [right; by exists txt | by left].
Qed.

(** X6: a policy returned by [fetchRobots] that blocks a path blocks every
    path that extends it. *)
Theorem blocked_paths_extend (fetch : request -> exc response)
    (origin : jsstring) (r : Robots.t) (p q : jsstring) :
  fetchRobots fetch origin = Ret r ->
  Robots.allowed r p = false ->
  Robots.allowed r (p ++ q) = false.
Proof.
  intros [-> | (txt & ->)]%fetchRobots_cases; simpl; [done|].
  apply allowed_by_extension.
Qed.

Lemma blocked_paths_extend_example :
  exists r, fetchRobots (fetch_serving query_rule_doc) example_origin = Ret r
            /\ Robots.allowed r (js "/p?q" ++ js "=1&r=2") = false.
Proof.
  eexists. split; [reflexivity|].
  apply (blocked_paths_extend (fetch_serving query_rule_doc) example_origin);
    [reflexivity | vm_compute; reflexivity].
Defined.

(** X7: the entries of a disallow sequence act one by one: a path is
    allowed by a sequence exactly when each part of it allows the path, so
    a longer sequence allows no more and the order of the entries does not
    matter. *)
Theorem disallow_entries_act_independently (ds ds' : list jsstring) (p : jsstring) :
  allowed_by (ds ++ ds') p = allowed_by ds p && allowed_by ds' p
  /\ (allowed_by (ds ++ ds') p = true -> allowed_by ds p = true)
  /\ (ds ≡ₚ ds' -> allowed_by ds p = allowed_by ds' p).
Proof.
  split_and!.
  - apply allowed_by_app.
  - rewrite allowed_by_app. by intros [? _]%andb_true_iff.
  - intros Hp. induction Hp as [|d l l' _ IH|d d' l|l l' l'' _ IH1 _ IH2].
    + done.
    + simpl. by rewrite IH.
    + simpl. repeat case_bool_decide; try done;
        by destruct (startsWith p d), (startsWith p d').
    + congruence.
Qed.

Lemma disallow_entries_act_independently_example :
  allowed_by [js "/a"; js "/b"] (js "/c") = allowed_by [js "/b"; js "/a"] (js "/c").
Proof.
  destruct (disallow_entries_act_independently [js "/a"; js "/b"] [js "/b"; js "/a"]
              (js "/c")) as (_ & _ & H).
  apply H. apply Permutation_swap.
Defined.

(** ** [stripTags] *)

(** *** Quantifiers and replacement *)

(** The longest run of characters of a class at the head of a text. *)
Lemma longest_run (p : N -> bool) (s : jsstring) :
  exists pre post, s = pre ++ post /\ forallb p pre = true
                   /\ match post with x :: _ => p x = false | [] => True end.
Proof.
  induction s as [|c s (pre & post & -> & Hpre & Hpost)].
  - by exists [], [].
  - destruct (p c) eqn:E.
    + exists (c :: pre), post. split_and!; [done | by simpl; rewrite E | done].
    + by exists [], (c :: pre ++ post).
Qed.

(** A greedy quantifier without upper bound stops at the end of the
    longest run when the continuation accepts there. *)
Lemma rep_greedy_longest {R} (p : N -> bool) (lo : nat) (k : jsstring -> option R)
    (pre post : jsstring) :
  forallb p pre = true ->
  match post with x :: _ => p x = false | [] => True end ->
  (lo <= length pre)%nat -> is_Some (k post) ->
  Regex.rep_greedy p lo None k (pre ++ post) = k post.
Proof.
  intros Hpre Hpost Hlo [r Hk]. revert lo Hlo.
  induction pre as [|c pre IH]; intros lo Hlo.
  - simpl in Hlo. assert (lo = 0%nat) as -> by lia.
    destruct post as [|x post]; simpl; [done|]. by rewrite Hpost.
  - simpl in Hpre. apply andb_true_iff in Hpre as [Hc Hpre].
    cbn [app Regex.rep_greedy]. simpl. rewrite Hc.
    rewrite IH by (simpl in Hlo; done || lia). by rewrite Hk.
Qed.

(** A quantifier that needs one character fails on a text that does not
    start with one. *)
Lemma rep_greedy_none {R} (p : N -> bool) (lo : nat) (hi : option nat)
    (k : jsstring -> option R) (s : jsstring) :
  match s with x :: _ => p x = false | [] => True end ->
  Regex.rep_greedy p (S lo) hi k s = None.
Proof.
  destruct s as [|x s]; simpl; [done|]. intros ->. by rewrite andb_false_r.
Qed.

Lemma replace_from_skip (ci : bool) (re : list Regex.atom) (by_ : jsstring)
    (n : nat) (s : jsstring) :
  (n <= length s)%nat ->
  Regex.replace_from ci re by_ n s = Regex.replace_from ci re by_ 0 (drop n s).
Proof.
  revert n. induction s as [|c s IH]; intros n Hn.
  - simpl in Hn. by assert (n = 0%nat) as -> by lia.
  - destruct n; [done|]. cbn [Regex.replace_from drop]. apply IH. simpl in Hn. lia.
Qed.

(** Replacement at a position where the pattern matches a non-empty text:
    the replacement, then the rest after the match. *)
Lemma replace_from_match (ci : bool) (re : list Regex.atom) (by_ rest : jsstring)
    (caps : list (nat * jsstring)) (pre : jsstring) :
  Regex.run ci re [] [] (pre ++ rest) = Some (caps, rest) ->
  pre <> [] ->
  Regex.replace_from ci re by_ 0 (pre ++ rest)
  = by_ ++ Regex.replace_from ci re by_ 0 rest.
Proof.
  intros Hrun Hne. destruct pre as [|c pre]; [done|].
  cbn [app Regex.replace_from]. unfold Regex.match_at.
  change (c :: pre ++ rest) with ((c :: pre) ++ rest). rewrite Hrun.
  cbn [Regex.whole]. f_equal.
  rewrite length_app, Nat.add_sub, take_app_length. simpl.
  rewrite replace_from_skip by (rewrite length_app; lia).
  by rewrite drop_app_length.
Qed.

Lemma replace_from_no_match (ci : bool) (re : list Regex.atom) (by_ : jsstring)
    (c : N) (s : jsstring) :
  Regex.run ci re [] [] (c :: s) = None ->
  Regex.replace_from ci re by_ 0 (c :: s) = c :: Regex.replace_from ci re by_ 0 s.
Proof.
  intros H. cbn [Regex.replace_from]. unfold Regex.match_at. by rewrite H.
Qed.

(** *** [trim] *)

Lemma trimStart_spec (s : jsstring) :
  exists a, s = a ++ trimStart s /\ forallb is_space a = true
            /\ match trimStart s with x :: _ => is_space x = false | [] => True end.
Proof.
  induction s as [|c s (a & Hs & Ha & Hh)]; [by exists []|].
  simpl. destruct (is_space c) eqn:E.
  - exists (c :: a). split_and!; [simpl; f_equal; exact Hs | by simpl; rewrite E | done].
  - by exists [].
Qed.

Lemma trimStart_id (s : jsstring) :
  match s with x :: _ => is_space x = false | [] => True end -> trimStart s = s.
Proof. destruct s as [|x s]; simpl; [done|]. by intros ->. Qed.

(** [trim] takes whitespace off both ends and leaves none there. *)
Lemma trim_spec (s : jsstring) :
  exists a b, s = a ++ trim s ++ b
              /\ forallb is_space a = true /\ forallb is_space b = true
              /\ trimmed (trim s) = true.
Proof.
  unfold trim, trimEnd.
  destruct (trimStart_spec s) as (a & Hs & Ha & Hh).
  destruct (trimStart_spec (reverse (trimStart s))) as (b & Hr & Hb & Hl).
  set (u := trimStart s) in *. set (w := trimStart (reverse u)) in *.
  assert (Hu : u = reverse w ++ reverse b).
  { rewrite <- reverse_app, <- Hr. by rewrite reverse_involutive. }
  exists a, (reverse b). split_and!.
  - by rewrite <- Hu.
  - done.
  - apply forallb_forall. intros x Hx%list_elem_of_In. rewrite elem_of_reverse in Hx.
    rewrite forallb_forall in Hb. apply Hb. exact (proj1 (list_elem_of_In _ _) Hx).
  - unfold trimmed. rewrite last_reverse. apply andb_true_iff. split.
    + destruct (reverse w) as [|x t] eqn:Ew; [done|]. simpl.
      rewrite Hu in Hh. simpl in Hh. by rewrite Hh.
    + destruct w as [|x t]; [done|]. simpl. by rewrite Hl.
Qed.

Lemma trim_id (t : jsstring) : trimmed t = true -> trim t = t.
Proof.
  unfold trimmed, trim, trimEnd. intros [Hh Hl]%andb_true_iff.
  rewrite (trimStart_id t).
  - rewrite trimStart_id; [apply reverse_involutive|].
    destruct (reverse t) as [|x r] eqn:E; [done|].
    rewrite <- head_reverse, E in Hl. simpl in Hl. by apply negb_true_iff.
  - destruct t as [|x t']; [done|]. simpl in Hh. by apply negb_true_iff.
Qed.

(** *** The whitespace replacement *)

Lemma collapse_spaces_char (c : N) (s : jsstring) :
  is_space c = false -> collapse_spaces (c :: s) = c :: collapse_spaces s.
Proof.
  intros Hc. apply replace_from_no_match.
  unfold re_spaces. cbn [Regex.run]. by apply rep_greedy_none.
Qed.

Lemma collapse_spaces_run (pre post : jsstring) :
  pre <> [] -> forallb is_space pre = true ->
  match post with x :: _ => is_space x = false | [] => True end ->
  collapse_spaces (pre ++ post) = 32 :: collapse_spaces post.
Proof.
  intros Hne Hpre Hpost.
  unfold collapse_spaces, Regex.replace_all.
  rewrite (replace_from_match false re_spaces (js " ") post [] pre); [done | | done].
  unfold re_spaces. cbn [Regex.run].
  rewrite rep_greedy_longest; [done | done | done | | by eexists].
  destruct pre; [done | simpl; lia].
Qed.

(** Induction along the whitespace replacement: it copies a character that
    is not whitespace and puts one space for a longest run of
    whitespace. *)
Lemma collapse_spaces_ind (P : jsstring -> jsstring -> Prop) :
  P [] [] ->
  (forall c s, is_space c = false ->
               P s (collapse_spaces s) -> P (c :: s) (c :: collapse_spaces s)) ->
  (forall pre post, pre <> [] -> forallb is_space pre = true ->
                    match post with x :: _ => is_space x = false | [] => True end ->
                    P post (collapse_spaces post) ->
                    P (pre ++ post) (32 :: collapse_spaces post)) ->
  forall s, P s (collapse_spaces s).
Proof.
  intros Hnil Hchar Hrun s.
  remember (length s) as n eqn:Hn. revert s Hn.
  induction n as [n IH] using lt_wf_ind. intros s Hn.
  destruct s as [|c s]; [exact Hnil|].
  destruct (is_space c) eqn:Hc.
  - destruct (longest_run is_space (c :: s)) as (pre & post & Hs & Hpre & Hpost).
    assert (Hne : pre <> []).
    { intros ->. simpl in Hs. subst post. congruence. }
    rewrite Hs, collapse_spaces_run by done.
    apply Hrun; try done.
    apply (IH (length post)); [|done].
    subst n. rewrite Hs, length_app. destruct pre; [done | simpl; lia].
  - rewrite collapse_spaces_char by done. apply Hchar; [done|].
    apply (IH (length s)); [subst n; simpl; lia | done].
Qed.

Lemma single_spaced_suffix (a t : jsstring) :
  single_spaced (a ++ t) = true -> single_spaced t = true.
Proof.
  induction a as [|x a IH]; [done|]. simpl. intros [_ H]%andb_true_iff. by apply IH.
Qed.

Lemma single_spaced_prefix (t b : jsstring) :
  single_spaced (t ++ b) = true -> single_spaced t = true.
Proof.
  induction t as [|x t IH]; [done|]. simpl. intros [Hx H]%andb_true_iff.
  rewrite IH by done. rewrite andb_true_r.
  destruct (is_space x); [|done]. simpl in *.
  apply andb_true_iff in Hx as [-> Hx]. simpl. by destruct t.
Qed.

Lemma collapse_spaces_head (s : jsstring) :
  match collapse_spaces s with x :: _ => is_space x = true -> x = 32 | [] => True end
  /\ match s with
     | x :: _ => is_space x = false -> head (collapse_spaces s) = Some x
     | [] => collapse_spaces s = []
     end.
Proof.
  pattern s, (collapse_spaces s). apply collapse_spaces_ind; clear s.
  - done.
  - intros c s Hc _. split; [congruence | done].
  - intros pre post Hne Hpre _ _. split; [done|].
    destruct pre as [|x pre]; [done|]. simpl in *.
    apply andb_true_iff in Hpre as [Hx _]. congruence.
Qed.

Lemma collapse_spaces_single_spaced (s : jsstring) :
  single_spaced (collapse_spaces s) = true.
Proof.
  pattern s, (collapse_spaces s). apply collapse_spaces_ind; clear s.
  - done.
  - intros c s Hc IH. simpl. by rewrite Hc, IH.
  - intros pre post _ _ Hpost IH. cbn [single_spaced]. rewrite IH, andb_true_r.
    apply orb_true_iff. right. simpl.
    destruct (collapse_spaces_head post) as [_ H].
    destruct post as [|x post]; [by rewrite H|].
    specialize (H Hpost).
    destruct (collapse_spaces (x :: post)) as [|y t]; [done|].
    injection H as ->. by rewrite Hpost.
Qed.

Lemma collapse_spaces_elem (s : jsstring) (x : N) :
  x ∈ collapse_spaces s -> x ∈ s \/ x = 32.
Proof.
  pattern s, (collapse_spaces s). apply collapse_spaces_ind; clear s.
  - by intros ?%elem_of_nil.
  - intros c s _ IH [-> | H]%elem_of_cons; [left; by left|].
    destruct (IH H); [left; by right | by right].
  - intros pre post _ _ _ IH [-> | H]%elem_of_cons; [by right|].
    destruct (IH H); [left; apply elem_of_app; by right | by right].
Qed.

(** Text that is single-spaced already is left as it is. *)
Lemma collapse_spaces_id (s : jsstring) :
  single_spaced s = true -> collapse_spaces s = s.
Proof.
  pattern s, (collapse_spaces s). apply collapse_spaces_ind; clear s.
  - done.
  - intros c s Hc IH. simpl. intros [_ H]%andb_true_iff. by rewrite IH.
  - intros pre post Hne Hpre Hpost IH H.
    rewrite IH by (by eapply single_spaced_suffix).
    destruct pre as [|x pre]; [done|]. simpl in Hpre, H.
    apply andb_true_iff in Hpre as [Hx Hpre].
    rewrite Hx in H. simpl in H.
    apply andb_true_iff in H as [[->%N.eqb_eq Hnext]%andb_true_iff _].
    destruct pre as [|y pre]; [done|]. simpl in Hpre, Hnext.
    apply andb_true_iff in Hpre as [Hy _]. by rewrite Hy in Hnext.
Qed.

(** Non-whitespace characters pass through the whitespace replacement. *)
Lemma collapse_spaces_filter (s : jsstring) :
  filter (fun x => is_space x = false) (collapse_spaces s)
  = filter (fun x => is_space x = false) s.
Proof.
  pattern s, (collapse_spaces s). apply collapse_spaces_ind; clear s.
  - done.
  - intros c s Hc IH. by rewrite !filter_cons, IH.
  - intros pre post _ Hpre _ IH. rewrite filter_cons_False by done.
    rewrite filter_app, IH.
    replace (filter (fun x => is_space x = false) pre) with (@nil N); [done|].
    symmetry. clear -Hpre. induction pre as [|x pre IHp]; [done|].
    simpl in Hpre. apply andb_true_iff in Hpre as [Hx Hpre].
    rewrite filter_cons_False by congruence. by apply IHp.
Qed.

(** *** The tag replacement *)

Lemma same_exact (c x : N) : Regex.same false c x = true -> x = c.
Proof. unfold Regex.same, Regex.canon. simpl. by intros ->%N.eqb_eq. Qed.

(** The tag pattern matches at a [<] followed by at least one character
    other than [>] and then a [>], and nowhere else. *)
Lemma run_tag_match (body rest : jsstring) :
  body <> [] -> forallb not_gt body = true ->
  Regex.run false re_tag [] [] (LT :: body ++ GT :: rest) = Some ([], rest).
Proof.
  intros Hne Hbody. unfold re_tag. cbn [Regex.run].
  replace (Regex.same false LT LT) with true by done.
  rewrite rep_greedy_longest; [| done | done | | by eexists].
  - done.
  - destruct body; [done | simpl; lia].
Qed.

Lemma run_tag_inv (s rest : jsstring) (caps : list (nat * jsstring)) :
  Regex.run false re_tag [] [] s = Some (caps, rest) ->
  exists body, s = LT :: body ++ GT :: rest /\ body <> [] /\ forallb not_gt body = true.
Proof.
  unfold re_tag. cbn [Regex.run].
  destruct s as [|x s]; [done|].
  destruct (Regex.same false LT x) eqn:E; [|done]. apply same_exact in E as ->.
  intros (body & post & -> & Hbody & Hlen & H)%rep_greedy_inv.
  destruct post as [|y post]; [done|].
  destruct (Regex.same false GT y) eqn:E; [|done]. apply same_exact in E as ->.
  injection H as _ ->. exists body. split_and!; [done | | done].
  intros ->. simpl in Hlen. lia.
Qed.

Lemma run_tag_none (c : N) (s : jsstring) :
  Regex.run false re_tag [] [] (c :: s) = None ->
  c <> LT \/ head s = Some GT \/ GT ∉ s.
Proof.
  intros H. destruct (decide (c = LT)) as [-> | ?]; [|by left]. right.
  destruct (longest_run not_gt s) as (body & post & -> & Hbody & Hpost).
  destruct post as [|y post].
  - right. rewrite app_nil_r. by apply forallb_not_gt.
  - assert (y = GT) as ->.
    { unfold not_gt in Hpost. apply negb_false_iff in Hpost. by apply N.eqb_eq. }
    destruct body as [|b body]; [by left|].
    rewrite run_tag_match in H; done.
Qed.

Lemma remove_tags_match (body rest : jsstring) :
  body <> [] -> forallb not_gt body = true ->
  remove_tags (LT :: body ++ GT :: rest) = remove_tags rest.
Proof.
  intros Hne Hbody. unfold remove_tags, Regex.replace_all.
  change (LT :: body ++ GT :: rest) with ((LT :: body) ++ GT :: rest).
  rewrite (cons_middle GT), app_assoc.
  rewrite (replace_from_match false re_tag [] rest []); [done | | by destruct body].
  rewrite <- app_assoc. by apply run_tag_match.
Qed.

(** Induction along the tag replacement: it drops a tag and copies a
    character at which no tag starts. *)
Lemma remove_tags_ind (P : jsstring -> jsstring -> Prop) :
  P [] [] ->
  (forall c s, Regex.run false re_tag [] [] (c :: s) = None ->
               P s (remove_tags s) -> P (c :: s) (c :: remove_tags s)) ->
  (forall body rest, body <> [] -> forallb not_gt body = true ->
                     P rest (remove_tags rest) ->
                     P (LT :: body ++ GT :: rest) (remove_tags rest)) ->
  forall s, P s (remove_tags s).
Proof.
  intros Hnil Hchar Htag s.
  remember (length s) as n eqn:Hn. revert s Hn.
  induction n as [n IH] using lt_wf_ind. intros s Hn.
  destruct s as [|c s]; [exact Hnil|].
  destruct (Regex.run false re_tag [] [] (c :: s)) as [[caps rest]|] eqn:Hrun.
  - apply run_tag_inv in Hrun as (body & Hs & Hne & Hbody).
    rewrite Hs, remove_tags_match by done. apply Htag; try done.
    apply (IH (length rest)); [|done].
    subst n. rewrite Hs. simpl. rewrite length_app. simpl. lia.
  - unfold remove_tags, Regex.replace_all.
    rewrite replace_from_no_match by done. apply Hchar; [done|].
    apply (IH (length s)); [subst n; simpl; lia | done].
Qed.

Lemma remove_tags_sublist (s : jsstring) : remove_tags s `sublist_of` s.
Proof.
  pattern s, (remove_tags s). apply remove_tags_ind; clear s.
  - done.
  - intros c s _ IH. by apply sublist_skip.
  - intros body rest _ _ IH. apply sublist_cons.
    etrans; [exact IH|]. apply sublist_inserts_l. by apply sublist_cons.
Qed.

Lemma angles_closed_suffix (a t : jsstring) :
  angles_closed (a ++ t) = true -> angles_closed t = true.
Proof.
  induction a as [|x a IH]; [done|]. simpl. intros [_ H]%andb_true_iff. by apply IH.
Qed.

Lemma angles_closed_prefix (t b : jsstring) :
  angles_closed (t ++ b) = true -> angles_closed t = true.
Proof.
  induction t as [|x t IH]; [done|]. simpl. intros [Hx H]%andb_true_iff.
  rewrite IH by done. rewrite andb_true_r.
  apply orb_true_iff in Hx as [[Hx | Hx]%orb_true_iff | Hx].
  - by rewrite Hx.
  - destruct t as [|y t]; simpl in *.
    + by rewrite orb_true_r.
    + by rewrite Hx, orb_true_r.
  - apply orb_true_iff. right. apply bool_decide_eq_true.
    apply bool_decide_eq_true in Hx. intros Hin. apply Hx, elem_of_app. by left.
Qed.

Lemma remove_tags_angles_closed (s : jsstring) : angles_closed (remove_tags s) = true.
Proof.
  pattern s, (remove_tags s). apply remove_tags_ind; clear s.
  - done.
  - intros c s Hnone IH. cbn [angles_closed]. rewrite IH, andb_true_r.
    destruct (run_tag_none c s Hnone) as [Hc | [Hh | Hno]].
    + apply N.eqb_neq in Hc. by rewrite Hc.
    + destruct s as [|y s]; [done|]. injection Hh as ->.
      unfold remove_tags, Regex.replace_all.
      rewrite replace_from_no_match by done.
      rewrite N.eqb_refl. by destruct (negb (c =? LT)).
    + apply orb_true_iff. right. apply bool_decide_eq_true.
      intros Hin. apply Hno. eapply elem_of_sublist; [done | apply remove_tags_sublist].
  - done.
Qed.

(** A text with nothing between angle brackets holds no tag. *)
Lemma angles_closed_no_tag (c : N) (s : jsstring) :
  angles_closed (c :: s) = true -> Regex.run false re_tag [] [] (c :: s) = None.
Proof.
  simpl. intros [Hc _]%andb_true_iff.
  destruct (Regex.run false re_tag [] [] (c :: s)) as [[caps rest]|] eqn:Hrun; [|done].
  apply run_tag_inv in Hrun as (body & [= -> ->] & Hne & Hbody). exfalso.
  destruct body as [|b body]; [done|]. simpl in Hc, Hbody.
  apply andb_true_iff in Hbody as [Hb Hbody].
  apply orb_true_iff in Hc as [Hc | Hc].
  - unfold not_gt in Hb. by rewrite Hc in Hb.
  - apply bool_decide_eq_true in Hc. apply Hc. right. apply elem_of_app. right. by left.
Qed.

Lemma remove_tags_id (s : jsstring) : angles_closed s = true -> remove_tags s = s.
Proof.
  induction s as [|c s IH]; [done|]. intros H.
  unfold remove_tags, Regex.replace_all.
  rewrite replace_from_no_match by (by apply angles_closed_no_tag).
  f_equal. apply IH. simpl in H. by apply andb_true_iff in H as [_ H].
Qed.

Lemma scan_no_tag (pos : nat) (s : jsstring) :
  angles_closed s = true -> Regex.scan false re_tag 0 pos s = [].
Proof.
  revert pos. induction s as [|c s IH]; intros pos H.
  - done.
  - cbn [Regex.scan]. unfold Regex.match_at.
    rewrite angles_closed_no_tag by done. apply IH.
    simpl in H. by apply andb_true_iff in H as [_ H].
Qed.

(** The whitespace replacement keeps angle brackets closed. *)
Lemma collapse_spaces_angles_closed (s : jsstring) :
  angles_closed s = true -> angles_closed (collapse_spaces s) = true.
Proof.
  pattern s, (collapse_spaces s). apply collapse_spaces_ind; clear s.
  - done.
  - intros c s Hc IH. cbn [angles_closed]. intros [Hh H]%andb_true_iff.
    rewrite IH by done. rewrite andb_true_r.
    apply orb_true_iff in Hh as [Hh | Hh].
    + apply orb_true_iff in Hh as [Hh | Hh]; [by rewrite Hh|].
      destruct s as [|y s]; [done|]. apply N.eqb_eq in Hh as ->.
      rewrite collapse_spaces_char by done. rewrite N.eqb_refl.
      by destruct (negb (c =? LT)).
    + apply orb_true_iff. right. apply bool_decide_eq_true.
      apply bool_decide_eq_true in Hh.
      intros [Hin | E]%collapse_spaces_elem; [done | discriminate E].
  - intros pre post _ _ _ IH H. cbn [angles_closed].
    rewrite IH by (by eapply angles_closed_suffix). done.
Qed.

(** *** [stripTags] as a whole *)

Lemma stripTags_stages (s : jsstring) :
  stripTags s = trim (collapse_spaces (remove_tags s)).
Proof. reflexivity. Qed.

Lemma filter_spaces_nil (a : jsstring) :
  forallb is_space a = true -> filter (fun x => is_space x = false) a = [].
Proof.
  induction a as [|x a IH]; [done|]. simpl. intros [Hx Ha]%andb_true_iff.
  rewrite filter_cons_False by congruence. by apply IH.
Qed.

Lemma stripTags_clean (s : jsstring) :
  angles_closed (stripTags s) = true /\ single_spaced (stripTags s) = true
  /\ trimmed (stripTags s) = true.
Proof.
  rewrite stripTags_stages.
  destruct (trim_spec (collapse_spaces (remove_tags s))) as (a & b & Hu & _ & _ & Ht).
  pose proof (collapse_spaces_single_spaced (remove_tags s)) as H1.
  pose proof (collapse_spaces_angles_closed _ (remove_tags_angles_closed s)) as H2.
  rewrite Hu in H1, H2.
  apply single_spaced_suffix, single_spaced_prefix in H1.
  apply angles_closed_suffix, angles_closed_prefix in H2. done.
Qed.

(** X8: the text returned by [stripTags] has no whitespace at either end,
    and every whitespace character in it is a single plain space between
    two other characters. *)
Theorem stripTags_normalises_whitespace (s : jsstring) :
  single_spaced (stripTags s) = true /\ trimmed (stripTags s) = true.
Proof.
  rewrite stripTags_stages.
  destruct (trim_spec (collapse_spaces (remove_tags s))) as (a & b & Hu & _ & _ & Ht).
  split; [|done].
  pose proof (collapse_spaces_single_spaced (remove_tags s)) as H.
  rewrite Hu in H. by apply single_spaced_suffix, single_spaced_prefix in H.
Qed.

(** X9: no tag is left in the text returned by [stripTags]: a [<] in it is
    directly followed by [>] or has no [>] after it, so the tag pattern
    finds nothing there. *)
Theorem stripTags_leaves_no_tag (s : jsstring) :
  angles_closed (stripTags s) = true
  /\ Regex.exec_all false re_tag (stripTags s) = [].
Proof.
  assert (H : angles_closed (stripTags s) = true).
  { rewrite stripTags_stages.
    destruct (trim_spec (collapse_spaces (remove_tags s))) as (a & b & Hu & _).
    pose proof (collapse_spaces_angles_closed _ (remove_tags_angles_closed s)) as H.
    rewrite Hu in H. by apply angles_closed_suffix, angles_closed_prefix in H. }
  split; [done|]. by apply scan_no_tag.
Qed.

Lemma stripTags_fixed (t : jsstring) :
  angles_closed t = true -> single_spaced t = true -> trimmed t = true ->
  stripTags t = t.
Proof.
  intros H1 H2 H3.
  by rewrite stripTags_stages, remove_tags_id, collapse_spaces_id, trim_id.
Qed.

(** X10: [stripTags] is idempotent, and it leaves a text as it is when the
    text holds no tag, is single-spaced and has no whitespace at its
    ends. *)
Theorem stripTags_idempotent (s t : jsstring) :
  stripTags (stripTags s) = stripTags s
  /\ (angles_closed t = true -> single_spaced t = true -> trimmed t = true ->
      stripTags t = t).
Proof.
  split; [|apply stripTags_fixed].
  destruct (stripTags_clean s) as (H1 & H2 & H3).
  by apply stripTags_fixed.
Qed.

Lemma stripTags_idempotent_example : stripTags (js "a <> b") = js "a <> b".
Proof.
  destruct (stripTags_idempotent [] (js "a <> b")) as (_ & H).
  apply H; reflexivity.
Defined.

Lemma single_spaced_space (t : jsstring) (x : N) :
  single_spaced t = true -> x ∈ t -> is_space x = true -> x = 32.
Proof.
  induction t as [|y t IH]; [by intros _ ?%elem_of_nil|].
  cbn [single_spaced]. intros [Hy Ht]%andb_true_iff [-> | Hx]%elem_of_cons Hs.
  - rewrite Hs in Hy. simpl in Hy. apply andb_true_iff in Hy as [Hy _].
    by apply N.eqb_eq.
  - by apply IH.
Qed.

(** X11: [stripTags] invents no text: the characters of its result other
    than whitespace are characters of the input, in the order of the
    input, and every other character of the result is a plain space; no
    tab, line break or other whitespace of the input stays. *)
Theorem stripTags_keeps_only_text (s : jsstring) :
  filter (fun x => is_space x = false) (stripTags s) `sublist_of` s
  /\ (forall x, x ∈ stripTags s -> (is_space x = false /\ x ∈ s) \/ x = 32).
Proof.
  split.
  - rewrite stripTags_stages.
    destruct (trim_spec (collapse_spaces (remove_tags s))) as (a & b & Hu & Ha & Hb & _).
    assert (E : filter (fun x => is_space x = false) (trim (collapse_spaces (remove_tags s)))
                = filter (fun x => is_space x = false) (remove_tags s)).
    { rewrite <- (collapse_spaces_filter (remove_tags s)).
      transitivity (filter (fun x => is_space x = false)
                      (a ++ trim (collapse_spaces (remove_tags s)) ++ b));
        [|f_equal; symmetry; exact Hu].
      rewrite !filter_app, (filter_spaces_nil a), (filter_spaces_nil b) by done.
      simpl. by rewrite app_nil_r. }
    rewrite E. etrans; [apply sublist_filter | apply remove_tags_sublist].
  - intros x Hx. destruct (is_space x) eqn:Hsp.
    + right. destruct (stripTags_clean s) as (_ & Hss & _).
      by apply (single_spaced_space (stripTags s)).
    + left. split; [done|].
      rewrite stripTags_stages in Hx.
      destruct (trim_spec (collapse_spaces (remove_tags s))) as (a & b & Hu & _).
      assert (Hin : x ∈ collapse_spaces (remove_tags s)).
      { rewrite Hu. apply elem_of_app. right. apply elem_of_app. by left. }
      apply collapse_spaces_elem in Hin as [Hin | ->]; [|done].
      eapply elem_of_sublist; [done | apply remove_tags_sublist].
Qed.

Lemma stripTags_keeps_only_text_example :
  99 ∈ stripTags tabbed_text
  /\ ((is_space 99 = false /\ 99 ∈ tabbed_text) \/ 99 = 32)
  /\ 9 ∈ tabbed_text /\ 9 ∉ stripTags tabbed_text.
Proof.
  destruct (stripTags_keeps_only_text tabbed_text) as (_ & H).
  assert (Hc : 99 ∈ stripTags tabbed_text) by by_computation.
  split_and!; [exact Hc | exact (H 99 Hc) | by_computation |].
  intros [[Hsp _] | E]%H; discriminate.
Defined.

(** ** [extractData] *)

Lemma stripTags_is_clean (s : jsstring) : clean (stripTags s) = true.
Proof.
  unfold clean. destruct (stripTags_clean s) as (-> & -> & ->). done.
Qed.

(** X12: every text in the result of [extractData] (the title, each
    heading, the text of each link) holds no tag, is single-spaced and has
    no whitespace at its ends. *)
Theorem extracted_texts_are_clean (URL_resolve : jsstring -> jsstring -> exc jsstring)
    (html baseOrigin : jsstring) (x : extraction) :
  extractData URL_resolve html baseOrigin = Ret x ->
  (forall t, title x = Some t -> clean t = true)
  /\ Forall (fun h => clean h = true) (headings x)
  /\ Forall (fun l => clean (text l) = true) (links x).
Proof.
  rewrite extractData_returns. intros [= <-]. simpl. split_and!.
  - intros t. destruct (Regex.first_match true re_title html); simpl; [|done].
    intros [= <-]. apply stripTags_is_clean.
  - rewrite heading_loop_take by (simpl; lia). simpl.
    apply Forall_take, Forall_fmap, Forall_forall. intros m _. apply stripTags_is_clean.
  - apply Forall_forall. intros l Hl.
    assert (Hin : l ∈ omap (candidate URL_resolve baseOrigin)
                         (Regex.exec_all true aRegex html)).
    { eapply elem_of_sublist; [exact Hl|].
      etrans; [apply sublist_take|]. etrans; [apply first_seen_sublist|].
      apply sublist_take. }
    apply list_elem_of_omap in Hin as (m & _ & Hm). unfold candidate in Hm.
    destruct (URL_resolve _ _); [|done]. injection Hm as <-. apply stripTags_is_clean.
Qed.

Lemma extracted_texts_are_clean_example :
  exists x, extractData resolve_simple twice_linked example_origin = Ret x
            /\ Forall (fun l => clean (text l) = true) (links x).
Proof.
  destruct (extracted_texts_are_clean resolve_simple twice_linked example_origin _
              (extractData_returns _ _ _)) as (_ & _ & H).
  eexists. split; [apply extractData_returns | exact H].
Defined.

Lemma first_seen_NoDup_id (earlier : list jsstring) (ls : list link) :
  NoDup (href <$> ls) -> (forall l, l ∈ ls -> href l ∉ earlier) ->
  first_seen earlier ls = ls.
Proof.
  revert earlier. induction ls as [|l ls IH]; intros earlier Hnd Hfresh; [done|].
  simpl. rewrite fmap_cons in Hnd. apply NoDup_cons in Hnd as [Hl Hnd].
  rewrite bool_decide_eq_false_2 by (apply Hfresh; by left).
  f_equal. apply IH; [done|].
  intros l' Hl' [E | ?]%elem_of_cons.
  - apply Hl. rewrite <- E. by apply list_elem_of_fmap_2.
  - apply (Hfresh l'); [by right | done].
Qed.

Lemma unique_links_first_seen (ls : list link) :
  unique_links ls = take 10 (first_seen [] ls).
Proof.
  unfold unique_links. rewrite (unique_loop_first_seen _ ∅ [] []); [done | set_solver |].
  simpl. lia.
Qed.

(** X13: deduplication is idempotent, and a list of at most 10 links with
    distinct addresses passes through it as it is. *)
Theorem deduplication_is_idempotent (ls ls' : list link) :
  unique_links (unique_links ls) = unique_links ls
  /\ (NoDup (href <$> ls') -> (length ls' <= 10)%nat -> unique_links ls' = ls').
Proof.
  assert (Hid : forall l : list link,
            NoDup (href <$> l) -> (length l <= 10)%nat -> unique_links l = l).
  { intros l Hnd Hlen. rewrite unique_links_first_seen.
    rewrite first_seen_NoDup_id; [by apply take_ge | done |].
    intros ? _. apply not_elem_of_nil. }
  split; [|apply Hid].
  apply Hid; rewrite unique_links_first_seen.
  - eapply sublist_NoDup; [apply (first_seen_NoDup [] ls)|].
    apply fmap_sublist, sublist_take.
  - rewrite length_take. lia.
Qed.

Lemma deduplication_is_idempotent_example :
  unique_links [{| href := js "/a"; text := js "A" |}; {| href := js "/b"; text := [] |}]
  = [{| href := js "/a"; text := js "A" |}; {| href := js "/b"; text := [] |}].
Proof.
  destruct (deduplication_is_idempotent []
              [{| href := js "/a"; text := js "A" |}; {| href := js "/b"; text := [] |}])
    as (_ & H).
  apply H; [by_computation | simpl; lia].
Defined.

(** ** The handler *)

(** X14: the handler always answers and never throws, and each answer has
    its cause: 400 when the address does not parse; 403 when the policy
    rejects the tested path; 502 with the upstream status when the page
    answers without success; 500 with the message when fetching or reading
    the page throws; otherwise the extraction of the page, with the
    address as normalised and the policy's crawl delay. *)
Theorem every_reply_has_its_cause (URL_new : jsstring -> exc URL.t)
    (URL_resolve : jsstring -> jsstring -> exc jsstring)
    (fetch : request -> exc response) (query : option jsstring) :
  exists r, scrape URL_new URL_resolve fetch query = Ret r
            /\ cause URL_new URL_resolve fetch query r.
Proof.
  unfold scrape. fold (requested_url query).
  destruct (URL_new (requested_url query)) as [u|e] eqn:Hu.
  - destruct (fetchRobots_returns fetch (URL.origin u)) as [robots Hr].
    rewrite Hr. simpl.
    destruct (Robots.allowed robots (tested_path u)) eqn:Ha; simpl.
    + fold (page_request u).
      destruct (fetch (page_request u)) as [res|e] eqn:Hf; simpl.
      * destruct (ok res) eqn:Hok; simpl.
        -- destruct (body res) as [html|e] eqn:Hb; simpl.
           ++ rewrite extractData_returns. simpl. eexists. split; [done|].
              exists u, robots, res, html. rewrite Hu, extractData_returns. done.
           ++ eexists. split; [done|]. exists u, robots. rewrite Hu.
              split_and!; try done. right. by exists res.
        -- eexists. split; [done|]. exists u, robots, res. by rewrite Hu.
      * eexists. split; [done|]. exists u, robots. rewrite Hu.
        split_and!; try done. by left.
    + eexists. split; [done|]. exists u, robots. by rewrite Hu.
  - eexists. split; [done|]. by exists e.
Qed.

Lemma fetchRobots_unavailable (fetch : request -> exc response) (origin : jsstring) :
  unavailable fetch origin -> fetchRobots fetch origin = Ret permissive.
Proof.
  unfold fetchRobots. intros [e He | res Hres Hok | res e Hres Hbody].
  - by rewrite He.
  - rewrite Hres. simpl. by rewrite Hok.
  - rewrite Hres. simpl. destruct (ok res); simpl; [by rewrite Hbody | done].
Qed.

Lemma scrape_blocked (URL_new : jsstring -> exc URL.t)
    (URL_resolve : jsstring -> jsstring -> exc jsstring)
    (fetch : request -> exc response) (query : option jsstring) :
  scrape URL_new URL_resolve fetch query = Ret Blocked <->
  exists u robots, URL_new (requested_url query) = Ret u
                   /\ fetchRobots fetch (URL.origin u) = Ret robots
                   /\ Robots.allowed robots (tested_path u) = false.
Proof.
  unfold scrape. fold (requested_url query).
  destruct (URL_new (requested_url query)) as [u|e] eqn:Hu.
  - destruct (fetchRobots_returns fetch (URL.origin u)) as [robots Hr].
    rewrite Hr. simpl.
    destruct (Robots.allowed robots (tested_path u)) eqn:Ha; simpl.
    + split.
      * intros H. exfalso.
        destruct (fetch _) as [res|e]; simpl in H; [|done].
        destruct (ok res); simpl in H; [|done].
        destruct (body res) as [html|e]; simpl in H; [|done].
        rewrite extractData_returns in H. done.
      * intros (u' & r' & [= <-] & Hr' & Ha'). congruence.
    + split; [|done]. intros _. by exists u, robots.
  - split; [done|]. by intros (u' & r' & [=] & _).
Qed.

(** X15: the fail-open policy reaches the handler: when the robots
    document cannot be retrieved, the handler never answers 403, and an
    extraction it returns carries no crawl delay. *)
Theorem unavailable_robots_never_block (URL_new : jsstring -> exc URL.t)
    (URL_resolve : jsstring -> jsstring -> exc jsstring)
    (fetch : request -> exc response) (query : option jsstring) (u : URL.t) :
  URL_new (requested_url query) = Ret u ->
  unavailable fetch (URL.origin u) ->
  scrape URL_new URL_resolve fetch query <> Ret Blocked
  /\ (forall url delay data,
        scrape URL_new URL_resolve fetch query = Ret (Scraped url delay data) ->
        delay = None).
Proof.
  intros Hu Hun%fetchRobots_unavailable. split.
  - intros (u' & r & Hu' & Hr & Ha)%scrape_blocked.
    rewrite Hu in Hu'. injection Hu' as <-. rewrite Hun in Hr. injection Hr as <-. done.
  - intros url delay data. unfold scrape. fold (requested_url query).
    rewrite Hu, Hun. simpl. fold (page_request u).
    destruct (fetch (page_request u)) as [res|e]; simpl; [|done].
    destruct (ok res); simpl; [|done].
    destruct (body res) as [html|e]; simpl; [|done].
    rewrite extractData_returns. simpl. by intros [= _ <- _].
Qed.

Lemma unavailable_robots_never_block_example :
  scrape (fun _ => Ret (page_url [] [])) resolve_simple fetch_404 None <> Ret Blocked.
Proof.
  apply (unavailable_robots_never_block (fun _ => Ret (page_url [] [])) resolve_simple
           fetch_404 None (page_url [] []) eq_refl).
  eapply NonSuccess; reflexivity.
Defined.

Lemma fetchRobots_ext (fetch fetch' : request -> exc response) (origin : jsstring) :
  fetch (robots_request origin) = fetch' (robots_request origin) ->
  fetchRobots fetch origin = fetchRobots fetch' origin.
Proof. unfold fetchRobots. fold (robots_request origin). by intros ->. Qed.

(** X16: a refusal is decided before the page is requested: two servers
    that answer the robots request alike are refused alike, whatever they
    would answer for the page; and an address that does not parse is
    answered 400 without regard to any server. *)
Theorem refusal_does_not_depend_on_page (URL_new : jsstring -> exc URL.t)
    (URL_resolve : jsstring -> jsstring -> exc jsstring)
    (fetch fetch' : request -> exc response) (query : option jsstring) :
  (forall origin, fetch (robots_request origin) = fetch' (robots_request origin)) ->
  (scrape URL_new URL_resolve fetch query = Ret Blocked ->
   scrape URL_new URL_resolve fetch' query = Ret Blocked)
  /\ (scrape URL_new URL_resolve fetch query = Ret InvalidUrl ->
      scrape URL_new URL_resolve fetch' query = Ret InvalidUrl).
Proof.
  intros Hsame. split.
  - rewrite !scrape_blocked. intros (u & robots & Hu & Hr & Ha).
    exists u, robots. split_and!; [done | | done].
    by rewrite <- (fetchRobots_ext fetch fetch').
  - unfold scrape. destruct (URL_new _) as [u|e]; [|done].
    rewrite <- (fetchRobots_ext fetch fetch') by done.
    destruct (fetchRobots_returns fetch (URL.origin u)) as [robots ->]. simpl.
    destruct (Robots.allowed robots (tested_path u)); simpl; [|done].
    intros H. exfalso.
    destruct (fetch _) as [res|e]; simpl in H; [|done].
    destruct (ok res); simpl in H; [|done].
    destruct (body res) as [html|e]; simpl in H; [|done].
    rewrite extractData_returns in H. done.
Qed.

Lemma refusal_does_not_depend_on_page_example :
  scrape (fun _ => Ret (page_url [] [])) resolve_simple
    (fun r => match agent r with
              | None => fetch_serving (unlines ["User-agent: *"; "Disallow: /"]%string) r
              | Some _ => Throw (js "down")
              end) None = Ret Blocked.
Proof.
  destruct (refusal_does_not_depend_on_page (fun _ => Ret (page_url [] [])) resolve_simple
              (fetch_serving (unlines ["User-agent: *"; "Disallow: /"]%string))
              (fun r => match agent r with
                        | None => fetch_serving
                                    (unlines ["User-agent: *"; "Disallow: /"]%string) r
                        | Some _ => Throw (js "down")
                        end) None) as (H & _).
  - reflexivity.
  - apply H. vm_compute. reflexivity.
Defined.

(** ** The anchor pattern *)

Lemma run_text_inv (ci : bool) (t : jsstring) (re : list Regex.atom)
    (opens caps : list (nat * jsstring)) (s : jsstring)
    (r : list (nat * jsstring) * jsstring) :
  Regex.run ci (Regex.text t ++ re) opens caps s = Some r ->
  exists t' s', s = t' ++ s' /\ Regex.canon ci <$> t' = Regex.canon ci <$> t
                /\ Regex.run ci re opens caps s' = Some r.
Proof.
  revert s. induction t as [|c t IH]; intros s; simpl.
  - intros H. by exists [], s.
  - destruct s as [|x s]; [done|].
    destruct (Regex.same ci c x) eqn:E; [|done].
    intros (t' & s' & -> & Ht & H)%IH.
    exists (x :: t'), s'. split_and!; [done | | done].
    simpl. f_equal; [|exact Ht]. symmetry. by apply N.eqb_eq.
Qed.

Lemma eat_inv (ci : bool) (t s s' : jsstring) :
  Regex.eat ci t s = Some s' ->
  exists t', s = t' ++ s' /\ Regex.canon ci <$> t' = Regex.canon ci <$> t.
Proof.
  revert s. induction t as [|c t IH]; intros s; simpl.
  - intros [= ->]. by exists [].
  - destruct s as [|x s]; [done|].
    destruct (Regex.same ci c x) eqn:E; [|done].
    intros (t' & -> & Ht)%IH. exists (x :: t'). split; [done|].
    simpl. f_equal; [|exact Ht]. symmetry. by apply N.eqb_eq.
Qed.

(** A quantifier with an upper bound takes no more than the bound. *)
Lemma rep_greedy_inv_bound {R} (p : N -> bool) (lo hi : nat)
    (k : jsstring -> option R) (s : jsstring) (r : R) :
  Regex.rep_greedy p lo (Some hi) k s = Some r ->
  exists pre post, s = pre ++ post /\ forallb p pre = true
                   /\ (lo <= length pre <= hi)%nat /\ k post = Some r.
Proof.
  revert lo hi. induction s as [|c s IH]; intros lo hi; cbn [Regex.rep_greedy].
  - destruct lo; [|done]. intros H. exists [], []. split_and!; simpl; (done || lia).
  - assert (Hstop : match lo with O => k (c :: s) | S _ => None end = Some r ->
                    exists pre post, c :: s = pre ++ post /\ forallb p pre = true
                                     /\ (lo <= length pre <= hi)%nat /\ k post = Some r).
    { destruct lo; [|done]. intros H. exists [], (c :: s).
      split_and!; simpl; (done || lia). }
    destruct hi as [|hi]; [exact Hstop|]. cbn [Regex.spent negb andb fmap option_fmap option_map].
    destruct (p c) eqn:Hc; [|exact Hstop].
    destruct (Regex.rep_greedy p (pred lo) (Some (pred (S hi))) k s) as [r'|] eqn:Er;
      [|exact Hstop].
    intros [= ->]. apply IH in Er as (pre & post & -> & Hp & Hlo & Hk).
    exists (c :: pre), post.
    split_and!; [done | by simpl; rewrite Hc | simpl; lia | simpl in *; lia | done].
Qed.

Lemma captured_prefix (a b : jsstring) : Regex.captured (Some (a ++ b)) b = a.
Proof. simpl. apply take_app_length'. rewrite length_app. lia. Qed.

(** A text equal, up to case, to one made of quotes is that text. *)
Lemma canon_quotes (q q' : jsstring) :
  forallb is_quote q = true ->
  Regex.canon true <$> q' = Regex.canon true <$> q -> q' = q.
Proof.
  revert q'. induction q as [|c q IH]; intros q' Hq; simpl.
  - by destruct q'.
  - destruct q' as [|x q']; [done|]. simpl in Hq.
    apply andb_true_iff in Hq as [Hc Hq]. intros [= Hx Hrest].
    f_equal; [|by apply IH].
    apply same_not_letter.
    + unfold is_quote, DQUOTE, SQUOTE in Hc.
      apply orb_true_iff in Hc as [->%N.eqb_eq | ->%N.eqb_eq]; lia.
    + unfold is_quote, DQUOTE, SQUOTE in Hc.
      apply orb_true_iff in Hc as [->%N.eqb_eq | ->%N.eqb_eq]; lia.
    + unfold Regex.same. apply N.eqb_eq. by symmetry.
Qed.

(** A lazy quantifier stops at the first place where the continuation
    accepts. *)
Lemma rep_lazy_first {R} (p : N -> bool) (lo : nat) (k : jsstring -> option R)
    (s : jsstring) (r : R) :
  Regex.rep_lazy p lo None k s = Some r ->
  exists pre post, s = pre ++ post /\ k post = Some r
    /\ forall b1 b2, pre = b1 ++ b2 -> b2 <> [] -> (lo <= length b1)%nat ->
                     k (b2 ++ post) = None.
Proof.
  revert lo. induction s as [|c s IH]; intros lo; cbn [Regex.rep_lazy].
  - destruct lo; [|done]. destruct (k []) eqn:Ek; [|done].
    intros [= ->]. exists [], []. split_and!; [done | done |].
    intros b1 b2 Hb Hne. by destruct b1, b2.
  - cbn [Regex.spent negb andb fmap option_fmap option_map].
    assert (Hmore : forall l, (lo = 0%nat -> k (c :: s) = None) -> pred lo = l ->
              (if p c then Regex.rep_lazy p l None k s else None) = Some r ->
              exists pre post, c :: s = pre ++ post /\ k post = Some r
                /\ forall b1 b2, pre = b1 ++ b2 -> b2 <> [] -> (lo <= length b1)%nat ->
                                 k (b2 ++ post) = None).
    { intros l Hk Hl. destruct (p c); [|done].
      intros (pre & post & -> & Hpost & Hfirst)%IH.
      exists (c :: pre), post. split_and!; [done | done |].
      intros b1 b2 Hb Hne Hlen. destruct b1 as [|x b1].
      - simpl in Hb, Hlen. subst b2. apply Hk. lia.
      - injection Hb as <- ->. apply (Hfirst b1); [done | done |]. simpl in Hlen. lia. }
    destruct lo.
    + destruct (k (c :: s)) as [r'|] eqn:Ek.
      * intros [= ->]. exists [], (c :: s). split_and!; [done | done |].
        intros b1 b2 Hb Hne. by destruct b1, b2.
      * by apply Hmore.
    + by apply Hmore.
Qed.

Lemma run_text_some (ci : bool) (t t' : jsstring) (re : list Regex.atom)
    (opens caps : list (nat * jsstring)) (s : jsstring) :
  Regex.canon ci <$> t' = Regex.canon ci <$> t ->
  Regex.run ci (Regex.text t ++ re) opens caps (t' ++ s) = Regex.run ci re opens caps s.
Proof.
  revert t'. induction t as [|c t IH]; intros t'.
  - by destruct t'.
  - destruct t' as [|x t']; [done|]. intros [= Hx Ht]. simpl.
    unfold Regex.same. rewrite Hx, N.eqb_refl. by apply IH.
Qed.

(** A match of [aRegex]: the opening [<a], whitespace, attributes, [href=],
    the value between two equal quotes or between none, further
    attributes, [>], the body, and the closing [</a>]. *)
Lemma aRegex_shape (s rest : jsstring) (caps : list (nat * jsstring)) :
  Regex.run true aRegex [] [] s = Some (caps, rest) ->
  exists opening ws pre name q val attrs body closing,
    s = (opening ++ ws ++ pre ++ name ++ q ++ val ++ q ++ attrs ++ GT :: body ++ closing)
        ++ rest
    /\ Regex.canon true <$> opening = js "<A"
    /\ ws <> [] /\ forallb is_space ws = true
    /\ (GT ∉ pre)
    /\ Regex.canon true <$> name = js "HREF="
    /\ forallb is_quote q = true /\ (length q <= 1)%nat
    /\ val <> [] /\ forallb href_char val = true
    /\ (GT ∉ attrs)
    /\ Regex.canon true <$> closing = js "</A>"
    /\ (forall b1 b2, body = b1 ++ b2 -> b2 <> [] ->
                      Regex.canon true <$> take 4 (b2 ++ closing) <> js "</A>")
    /\ caps = [(3%nat, body); (2%nat, val); (1%nat, q)].
Proof.
  unfold aRegex.
  intros (opening & s1 & -> & Hopen & H)%run_text_inv.
  cbn [app Regex.run] in H.
  apply rep_greedy_inv in H as (ws & s2 & -> & Hws & Hwslen & H).
  cbn [Regex.run] in H.
  apply rep_greedy_inv in H as (pre & s3 & -> & Hpre & _ & H).
  apply run_text_inv in H as (name & s4 & -> & Hname & H).
  cbn [app Regex.run] in H.
  apply rep_greedy_inv_bound in H as (q & s5 & -> & Hq & Hqlen & H).
  cbn [Regex.run Regex.cap_lookup Nat.eqb] in H. rewrite captured_prefix in H.
  apply rep_greedy_inv in H as (val & s6 & -> & Hval & Hvallen & H).
  cbn [Regex.run Regex.cap_lookup Nat.eqb] in H. rewrite captured_prefix in H.
  destruct (Regex.eat true q s6) as [s7|] eqn:Heat; [|done].
  apply eat_inv in Heat as (q' & -> & Hq').
  apply canon_quotes in Hq'; [|done]. subst q'.
  apply rep_greedy_inv in H as (attrs & s8 & -> & Hattrs & _ & H).
  cbn [Regex.run] in H.
  destruct s8 as [|x s9]; [done|].
  destruct (Regex.same true GT x) eqn:E; [|done].
  apply same_not_letter in E; [|unfold GT; lia..]. subst x.
  apply rep_lazy_first in H as (body & s10 & -> & H & Hfirst).
  cbn [Regex.run Regex.cap_lookup Nat.eqb] in H. rewrite captured_prefix in H.
  rewrite <- (app_nil_r (Regex.text (js "</a>"))) in H.
  apply run_text_inv in H as (closing & s11 & -> & Hclose & H).
  cbn [Regex.run] in H. injection H as <- <-.
  assert (Hlen : length closing = 4%nat).
  { apply (f_equal length) in Hclose. by rewrite length_fmap in Hclose. }
  exists opening, ws, pre, name, q, val, attrs, body, closing.
  split_and!; try done.
  - rewrite <- !app_assoc. do 7 f_equal. simpl. by rewrite <- !app_assoc.
  - intros ->. simpl in Hwslen. lia.
  - by apply forallb_not_gt.
  - lia.
  - intros ->. simpl in Hvallen. lia.
  - by apply forallb_not_gt.
  - intros b1 b2 Hb Hne Hocc.
    specialize (Hfirst b1 b2 Hb Hne (Nat.le_0_l _)).
    cbn [Regex.run] in Hfirst.
    rewrite <- (app_nil_r (Regex.text (js "</a>"))) in Hfirst.
    assert (Hsplit : b2 ++ closing ++ s11
                     = take 4 (b2 ++ closing) ++ drop 4 (b2 ++ closing) ++ s11).
    { by rewrite (app_assoc (take _ _)), take_drop, <- app_assoc. }
    rewrite Hsplit, (run_text_some true (js "</a>")) in Hfirst; [done|].
    rewrite Hocc. reflexivity.
Qed.

Lemma quote_or_none (q : jsstring) :
  forallb is_quote q = true -> (length q <= 1)%nat ->
  q = [] \/ q = [DQUOTE] \/ q = [SQUOTE].
Proof.
  destruct q as [|c [|c' q]]; simpl; [by left | | lia].
  rewrite andb_true_r. unfold is_quote.
  intros [->%N.eqb_eq | ->%N.eqb_eq]%orb_true_iff _; [right; by left | right; by right].
Qed.

Lemma match_at_run (ci : bool) (re : list Regex.atom) (pos : nat) (s : jsstring)
    (m : Regex.result) :
  Regex.match_at ci re pos s = Some m ->
  exists rest, Regex.run ci re [] [] s = Some (Regex.groups m, rest)
               /\ Regex.whole m = take (length s - length rest) s.
Proof.
  unfold Regex.match_at.
  destruct (Regex.run ci re [] [] s) as [[caps rest]|]; [|done].
  intros [= <-]. by exists rest.
Qed.

(** X17: in every match of the anchor pattern the reference handed to the
    URL constructor is not empty and holds no quote, no whitespace and no
    [>]; it stands after [href=], between two equal quotes or between
    none, inside a tag that opens with [<a] and whitespace; the text is
    what stands between the [>] of that tag and the closing [</a>]. *)
Theorem anchor_reference_is_well_formed (html : jsstring) (m : Regex.result) :
  m ∈ Regex.exec_all true aRegex html ->
  Regex.group m 2 <> []
  /\ forallb href_char (Regex.group m 2) = true
  /\ exists opening ws pre name q attrs closing,
       Regex.whole m = opening ++ ws ++ pre ++ name ++ q ++ Regex.group m 2 ++ q
                       ++ attrs ++ GT :: Regex.group m 3 ++ closing
       /\ Regex.canon true <$> opening = js "<A"
       /\ ws <> [] /\ forallb is_space ws = true /\ (GT ∉ pre)
       /\ Regex.canon true <$> name = js "HREF="
       /\ (q = [] \/ q = [DQUOTE] \/ q = [SQUOTE])
       /\ (GT ∉ attrs)
       /\ Regex.canon true <$> closing = js "</A>".
Proof.
  intros (i & _ & (rest & Hrun & Hwhole)%match_at_run)%scan_elem.
  apply aRegex_shape in Hrun
    as (opening & ws & pre & name & q & val & attrs & body & closing & Hs & Hopen & Hws1
        & Hws2 & Hpre & Hname & Hq & Hqlen & Hval1 & Hval2 & Hattrs & Hclose & _ & Hcaps).
  unfold Regex.group. rewrite Hcaps. simpl.
  split_and!; [done | done |].
  exists opening, ws, pre, name, q, attrs, closing.
  split_and!; try done; [|by apply quote_or_none].
  rewrite Hwhole, Hs. apply take_app_length'. rewrite length_app. lia.
Qed.

Lemma anchor_reference_is_well_formed_example :
  exists m, m ∈ Regex.exec_all true aRegex nested_anchor
            /\ Regex.group m 2 = js "/x"
            /\ forallb href_char (Regex.group m 2) = true.
Proof.
  assert (Hin : {| Regex.index := 0; Regex.whole := js "<a href=/x>one</A>";
                   Regex.groups := [(3%nat, js "one"); (2%nat, js "/x"); (1%nat, [])] |}
                ∈ Regex.exec_all true aRegex nested_anchor).
  { replace (Regex.exec_all true aRegex nested_anchor)
      with [{| Regex.index := 0; Regex.whole := js "<a href=/x>one</A>";
               Regex.groups := [(3%nat, js "one"); (2%nat, js "/x"); (1%nat, [])] |}]
      by (vm_compute; reflexivity).
    by left. }
  eexists. split; [exact Hin|]. split; [reflexivity|].
  by destruct (anchor_reference_is_well_formed nested_anchor _ Hin) as (_ & H & _).
Defined.

(** X18: the text of an anchor ends at the first closing tag: no [</a>],
    in any case, starts inside the text that a match of the anchor pattern
    captures. *)
Theorem anchor_text_ends_at_first_closing_tag (html : jsstring) (m : Regex.result) :
  m ∈ Regex.exec_all true aRegex html ->
  exists before closing,
    Regex.whole m = before ++ GT :: Regex.group m 3 ++ closing
    /\ (GT ∉ drop 2 before)
    /\ Regex.canon true <$> closing = js "</A>"
    /\ forall b1 b2, Regex.group m 3 = b1 ++ b2 -> b2 <> [] ->
                     Regex.canon true <$> take 4 (b2 ++ closing) <> js "</A>".
Proof.
  intros (i & _ & (rest & Hrun & Hwhole)%match_at_run)%scan_elem.
  apply aRegex_shape in Hrun
    as (opening & ws & pre & name & q & val & attrs & body & closing & Hs & Hopen & Hws1
        & Hws2 & Hpre & Hname & Hq & Hqlen & Hval1 & Hval2 & Hattrs & Hclose & Hfirst
        & Hcaps).
  unfold Regex.group. rewrite Hcaps. simpl.
  exists (opening ++ ws ++ pre ++ name ++ q ++ val ++ q ++ attrs), closing.
  split_and!; [| | done | done].
  - rewrite Hwhole, Hs, <- !app_assoc.
    rewrite !app_assoc. apply take_app_length'. rewrite !length_app. simpl. lia.
  - assert (Hlen : length opening = 2%nat).
    { apply (f_equal length) in Hopen. by rewrite length_fmap in Hopen. }
    rewrite drop_app_length' by done.
    assert (Hcanon : forall t u : jsstring, GT ∉ u -> Regex.canon true <$> t = u -> GT ∉ t).
    { intros t u Hu <- Hin. apply Hu.
      by apply (list_elem_of_fmap_2 (Regex.canon true)) in Hin. }
    assert (Hcls : forall (p : N -> bool) (t : jsstring), p GT = false -> forallb p t = true -> GT ∉ t).
    { intros p t Hp Ht Hin. rewrite forallb_forall in Ht.
      apply list_elem_of_In in Hin. apply Ht in Hin. congruence. }
    rewrite !not_elem_of_app. split_and!.
    + by apply (Hcls is_space).
    + done.
    + apply (Hcanon name (js "HREF=")); [by_computation | done].
    + by apply (Hcls is_quote).
    + by apply (Hcls href_char).
    + by apply (Hcls is_quote).
    + done.
Qed.

Lemma anchor_text_ends_at_first_closing_tag_example :
  exists m, m ∈ Regex.exec_all true aRegex nested_anchor
            /\ Regex.group m 3 = js "one".
Proof.
  assert (Hin : {| Regex.index := 0; Regex.whole := js "<a href=/x>one</A>";
                   Regex.groups := [(3%nat, js "one"); (2%nat, js "/x"); (1%nat, [])] |}
                ∈ Regex.exec_all true aRegex nested_anchor).
  { replace (Regex.exec_all true aRegex nested_anchor)
      with [{| Regex.index := 0; Regex.whole := js "<a href=/x>one</A>";
               Regex.groups := [(3%nat, js "one"); (2%nat, js "/x"); (1%nat, [])] |}]
      by (vm_compute; reflexivity).
    by left. }
  eexists. split; [exact Hin|].
  destruct (anchor_text_ends_at_first_closing_tag nested_anchor _ Hin)
    as (before & closing & _ & _ & _ & _).
  reflexivity.
Defined.

(** ** The heading pattern *)

Lemma same_letters_h (h x : N) :
  h = 104 \/ h = 72 -> x = 104 \/ x = 72 -> Regex.same true h x = true.
Proof. by intros [-> | ->] [-> | ->]. Qed.

Lemma same_refl (ci : bool) (c : N) : Regex.same ci c c = true.
Proof. unfold Regex.same. apply N.eqb_refl. Qed.

(** A match of [hRegex] ends at the first closing tag of its level. *)
Lemma hRegex_first (s rest : jsstring) (caps : list (nat * jsstring)) :
  Regex.run true hRegex [] [] s = Some (caps, rest) ->
  exists h d attrs body h',
    s = (LT :: h :: d :: attrs ++ GT :: body ++ [LT; SLASH; h'; d; GT]) ++ rest
    /\ caps = [(2%nat, body); (1%nat, [h; d])]
    /\ forall b1 b2 x tail,
         body = b1 ++ b2 -> b2 <> [] -> x = 104 \/ x = 72 ->
         b2 ++ [LT; SLASH; h'; d; GT] <> LT :: SLASH :: x :: d :: GT :: tail.
Proof.
  unfold hRegex. cbn [Regex.run].
  destruct s as [|x s]; [done|].
  destruct (Regex.same true LT x) eqn:E1; [|done].
  apply same_not_letter in E1; [|unfold LT; lia..]. subst x.
  destruct s as [|h s]; [done|].
  destruct (Regex.same true 104 h) eqn:E2; [|done].
  apply same_letter_h in E2.
  destruct s as [|d s]; [done|].
  destruct (one_to_three d) eqn:E3; [|done].
  assert (Hd : 49 <= d <= 51).
  { unfold one_to_three in E3. apply andb_true_iff in E3 as [?%N.leb_le ?%N.leb_le]. lia. }
  intros (attrs & s1 & -> & Hattrs & _ & H)%rep_greedy_inv.
  destruct s1 as [|x s1]; [done|].
  destruct (Regex.same true GT x) eqn:E4; [|done].
  apply same_not_letter in E4; [|unfold GT; lia..]. subst x.
  apply rep_lazy_first in H as (body & s2 & -> & H & Hfirst).
  cbn [Regex.cap_lookup Nat.eqb] in H, Hfirst.
  change (h :: d :: attrs ++ GT :: body ++ s2)
    with ([h; d] ++ attrs ++ GT :: body ++ s2) in H, Hfirst.
  rewrite captured_prefix in H.
  destruct s2 as [|x s2]; [done|].
  destruct (Regex.same true LT x) eqn:E5; [|done].
  apply same_not_letter in E5; [|unfold LT; lia..]. subst x.
  destruct s2 as [|x s2]; [done|].
  destruct (Regex.same true SLASH x) eqn:E6; [|done].
  apply same_not_letter in E6; [|unfold SLASH; lia..]. subst x.
  cbn [Regex.eat] in H.
  destruct s2 as [|h' s2]; [done|].
  destruct (Regex.same true h h') eqn:E7; [|done].
  apply (same_sym_letter_h h h' E2) in E7.
  destruct s2 as [|d' s2]; [done|].
  destruct (Regex.same true d d') eqn:E8; [|done].
  apply same_not_letter in E8; [|lia..]. subst d'.
  destruct s2 as [|x s2]; [done|].
  destruct (Regex.same true GT x) eqn:E9; [|done].
  apply same_not_letter in E9; [|unfold GT; lia..]. subst x.
  injection H as <- <-.
  exists h, d, attrs, body, h'. split_and!.
  - simpl. do 3 f_equal. rewrite <- !app_assoc. simpl. rewrite <- !app_assoc. done.
  - do 2 f_equal. apply captured_prefix.
  - intros b1 b2 x tail Hb Hne Hx Hocc.
    specialize (Hfirst b1 b2 Hb Hne (Nat.le_0_l _)).
    replace (b2 ++ LT :: SLASH :: h' :: d :: GT :: s2)
      with (LT :: SLASH :: x :: d :: GT :: tail ++ s2) in Hfirst.
    + rewrite !same_refl in Hfirst. rewrite captured_prefix in Hfirst.
      cbn [Regex.eat] in Hfirst.
      rewrite (same_letters_h h x E2 Hx), !same_refl in Hfirst. done.
    + change (LT :: SLASH :: x :: d :: GT :: tail ++ s2)
        with ((LT :: SLASH :: x :: d :: GT :: tail) ++ s2).
      rewrite <- Hocc, <- app_assoc. done.
Qed.

(** X19: the text of a heading ends at the first closing tag of its level:
    in a match of the heading pattern that opens with [<hN], no [</hN>]
    with the same digit starts inside the captured text. *)
Theorem heading_text_ends_at_first_closing_tag (html : jsstring) (m : Regex.result) :
  m ∈ Regex.exec_all true hRegex html ->
  exists h d attrs h',
    Regex.whole m = LT :: h :: d :: attrs ++ GT :: Regex.group m 2 ++ [LT; SLASH; h'; d; GT]
    /\ Regex.group m 1 = [h; d]
    /\ forall b1 b2 x tail,
         Regex.group m 2 = b1 ++ b2 -> b2 <> [] -> x = 104 \/ x = 72 ->
         b2 ++ [LT; SLASH; h'; d; GT] <> LT :: SLASH :: x :: d :: GT :: tail.
Proof.
  intros (i & _ & (rest & Hrun & Hwhole)%match_at_run)%scan_elem.
  apply hRegex_first in Hrun as (h & d & attrs & body & h' & Hs & Hcaps & Hfirst).
  unfold Regex.group. rewrite Hcaps. simpl.
  exists h, d, attrs, h'. split_and!; [| done | done].
  rewrite Hwhole, Hs. apply take_app_length'. rewrite length_app. lia.
Qed.

Lemma heading_text_ends_at_first_closing_tag_example :
  exists m, m ∈ Regex.exec_all true hRegex twice_closed_heading
            /\ Regex.group m 2 = js "one"
            /\ exists h d attrs h',
                 Regex.whole m
                 = LT :: h :: d :: attrs ++ GT :: Regex.group m 2 ++ [LT; SLASH; h'; d; GT].
Proof.
  assert (Hin : {| Regex.index := 0; Regex.whole := js "<h2>one</h2>";
                   Regex.groups := [(2%nat, js "one"); (1%nat, js "h2")] |}
                ∈ Regex.exec_all true hRegex twice_closed_heading).
  { replace (Regex.exec_all true hRegex twice_closed_heading)
      with [{| Regex.index := 0; Regex.whole := js "<h2>one</h2>";
               Regex.groups := [(2%nat, js "one"); (1%nat, js "h2")] |}]
      by (vm_compute; reflexivity).
    by left. }
  eexists. split; [exact Hin|]. split; [reflexivity|].
  destruct (heading_text_ends_at_first_closing_tag twice_closed_heading _ Hin)
    as (h & d & attrs & h' & Hw & _).
  by exists h, d, attrs, h'.
Defined.

(** * The headings collected by [extractData] *)

(** ** Pages of sibling headings *)

(** A lazy quantifier reaches the first place where the continuation
    accepts. *)
Lemma rep_lazy_reach {R} (p : N -> bool) (k : jsstring -> option R)
    (pre post : jsstring) :
  forallb p pre = true -> is_Some (k post) ->
  (forall b1 b2, pre = b1 ++ b2 -> b2 <> [] -> k (b2 ++ post) = None) ->
  Regex.rep_lazy p 0 None k (pre ++ post) = k post.
Proof.
  intros Hp [r Hr]. induction pre as [|c pre IH]; intros Hfail.
  - destruct post as [|x post]; simpl; by rewrite Hr.
  - simpl in Hp. apply andb_true_iff in Hp as [Hc Hp].
    pose proof (Hfail [] (c :: pre) eq_refl) as H0. cbn [app] in H0.
    cbn [app Regex.rep_lazy]. rewrite H0 by done.
    simpl. rewrite Hc. apply IH; [done|].
    intros b1 b2 Hb Hne. apply (Hfail (c :: b1)); [by rewrite Hb | done].
Qed.

(** The heading pattern matches at a [<] only. *)
Lemma hRegex_needs_lt (c : N) (s : jsstring) :
  c <> LT -> Regex.run true hRegex [] [] (c :: s) = None.
Proof.
  intros Hc. unfold hRegex. cbn [Regex.run].
  destruct (Regex.same true LT c) eqn:E; [|done].
  apply same_not_letter in E; [done | unfold LT; lia..].
Qed.

(** The end of the heading pattern at the closing tag of an [h2]. *)
Lemma hRegex_closing_tag (b rest : jsstring) :
  Regex.run true
    [Regex.Close 2; Regex.Chr LT; Regex.Chr SLASH; Regex.Backref 1; Regex.Chr GT]
    [(2%nat, b ++ js "</h2>" ++ rest);
     (1%nat, 104 :: 50 :: GT :: b ++ js "</h2>" ++ rest)]
    [(1%nat, Regex.captured (Some (104 :: 50 :: GT :: b ++ js "</h2>" ++ rest))
               (GT :: b ++ js "</h2>" ++ rest))]
    (js "</h2>" ++ rest)
  = Some ([(2%nat, b); (1%nat, js "h2")], rest).
Proof.
  change (104 :: 50 :: GT :: b ++ js "</h2>" ++ rest)
    with ([104; 50] ++ GT :: b ++ js "</h2>" ++ rest).
  rewrite captured_prefix.
  cbn [Regex.run Regex.cap_lookup Nat.eqb]. rewrite captured_prefix.
  reflexivity.
Qed.

(** The heading pattern on a heading element whose text holds no [<]. *)
Lemma hRegex_h2_element (b rest : jsstring) :
  LT ∉ b ->
  Regex.run true hRegex [] [] (h2_element b ++ rest)
  = Some ([(2%nat, b); (1%nat, js "h2")], rest).
Proof.
  intros Hb. unfold hRegex, h2_element. rewrite <- !app_assoc.
  change (js "<h2>" ++ b ++ js "</h2>" ++ rest)
    with (LT :: 104 :: 50 :: GT :: b ++ js "</h2>" ++ rest).
  cbn [Regex.run]. rewrite !same_refl.
  replace (one_to_three 50) with true by reflexivity.
  cbn [Regex.rep_greedy Regex.spent negb andb].
  replace (not_gt GT) with false by reflexivity.
  rewrite same_refl.
  rewrite rep_lazy_reach.
  - exact (hRegex_closing_tag b rest).
  - clear. by induction b.
  - eexists. exact (hRegex_closing_tag b rest).
  - intros b1 b2 -> Hne. destruct b2 as [|x b2]; [done|].
    cbn [app]. destruct (Regex.same true LT x) eqn:E; [|done].
    apply same_not_letter in E; [|unfold LT; lia..]. subst x.
    exfalso. apply Hb. apply elem_of_app. right. by left.
Qed.

Lemma scan_skip (ci : bool) (re : list Regex.atom) (n pos : nat) (s : jsstring) :
  (n <= length s)%nat ->
  Regex.scan ci re n pos s = Regex.scan ci re 0 (pos + n) (drop n s).
Proof.
  revert n pos. induction s as [|c s IH]; intros n pos Hn.
  - simpl in Hn. assert (n = 0%nat) as -> by lia. by rewrite Nat.add_0_r.
  - destruct n; [by rewrite Nat.add_0_r|]. cbn [Regex.scan drop].
    rewrite IH by (simpl in Hn; lia). by rewrite Nat.add_succ_r.
Qed.

Lemma scan_past (pos : nat) (sep rest : jsstring) :
  LT ∉ sep ->
  Regex.scan true hRegex 0 pos (sep ++ rest)
  = Regex.scan true hRegex 0 (pos + length sep) rest.
Proof.
  revert pos. induction sep as [|c sep IH]; intros pos Hsep.
  - by rewrite Nat.add_0_r.
  - apply not_elem_of_cons in Hsep as [Hc Hsep].
    cbn [app Regex.scan]. unfold Regex.match_at.
    rewrite hRegex_needs_lt by done. rewrite IH by done.
    simpl. by rewrite Nat.add_succ_r.
Qed.

Lemma scan_h2_element (pos : nat) (b rest : jsstring) :
  LT ∉ b ->
  Regex.scan true hRegex 0 pos (h2_element b ++ rest)
  = {| Regex.index := pos; Regex.whole := h2_element b;
       Regex.groups := [(2%nat, b); (1%nat, js "h2")] |}
    :: Regex.scan true hRegex 0 (pos + length (h2_element b)) rest.
Proof.
  intros Hb.
  assert (Hw : take (length (h2_element b ++ rest) - length rest) (h2_element b ++ rest)
               = h2_element b).
  { apply take_app_length'. rewrite length_app. lia. }
  destruct (h2_element b ++ rest) as [|c s] eqn:E; [discriminate E|].
  cbn [Regex.scan]. unfold Regex.match_at. rewrite <- E at 1.
  rewrite hRegex_h2_element by done. rewrite Hw. cbn [Regex.whole].
  f_equal.
  assert (Hs : drop (length (h2_element b)) (c :: s) = rest).
  { rewrite <- E. by rewrite drop_app_length. }
  assert (Hlen : (length (h2_element b) <= length (c :: s))%nat).
  { rewrite <- E, length_app. lia. }
  destruct (length (h2_element b)) as [|n] eqn:HL.
  { unfold h2_element in HL. rewrite !length_app in HL. simpl in HL. lia. }
  cbn [pred drop length] in *. rewrite scan_skip by lia.
  rewrite Hs. f_equal. lia.
Qed.

(** On a page of heading elements whose texts and separator hold no [<],
    the pattern finds the elements, one after the other. *)
Lemma scan_h2_page (pos : nat) (sep : jsstring) (bodies : list jsstring) :
  LT ∉ sep -> Forall (fun b => LT ∉ b) bodies ->
  (fun m => Regex.group m 2) <$> Regex.scan true hRegex 0 pos (h2_page sep bodies)
  = bodies.
Proof.
  intros Hsep Hb. revert pos. induction Hb as [|b bs Hb _ IH]; intros pos.
  - reflexivity.
  - unfold h2_page. rewrite fmap_cons. cbn [mjoin list_join]. rewrite <- app_assoc.
    rewrite scan_h2_element by done. rewrite fmap_cons. f_equal.
    rewrite scan_past by done. apply IH.
Qed.

(** ** What is collected as a heading *)

Lemma element_name_heading (h d : N) (rest : jsstring) :
  h = 104 \/ h = 72 -> d = 49 \/ d = 50 \/ d = 51 ->
  [h; d] `prefix_of` element_name (LT :: h :: d :: rest).
Proof.
  intros Hh Hd. exists (name_run rest).
  destruct Hh as [-> | ->], Hd as [-> | [-> | ->]]; reflexivity.
Qed.

(** C6, with the elements as the pattern takes them: the headings are the
    bodies of the first 5 matches of the heading pattern, taken in the
    order of the document, each passed through [stripTags] and therefore
    free of tags, single-spaced and without whitespace at its ends; there
    are 5 of them as soon as the pattern finds 5 matches, and as many as
    matches otherwise.  Each match opens with a tag whose name begins with
    [hN], N among 1, 2, 3, and closes with [</hN>] of the same level.  A
    page of heading elements with plain texts yields the first five of
    them, seven elements as well as more. *)
Theorem headings_first_five_matched_pairs
    (URL_resolve : jsstring -> jsstring -> exc jsstring) (html baseOrigin : jsstring) :
  let ms := Regex.exec_all true hRegex html in
  (exists x, extractData URL_resolve html baseOrigin = Ret x
     /\ headings x = take 5 ((fun m => stripTags (Regex.group m 2)) <$> ms)
     /\ length (headings x) = Nat.min 5 (length ms)
     /\ Forall (fun h => clean h = true) (headings x))
  /\ StronglySorted
       (fun m1 m2 => (Regex.index m1 + length (Regex.whole m1) <= Regex.index m2)%nat) ms
  /\ (forall m, m ∈ ms ->
      exists h d attrs body h',
        take (length (Regex.whole m)) (drop (Regex.index m) html) = Regex.whole m
        /\ Regex.whole m = LT :: h :: d :: attrs ++ GT :: body ++ [LT; SLASH; h'; d; GT]
        /\ (h = 104 \/ h = 72) /\ (h' = 104 \/ h' = 72)
        /\ (d = 49 \/ d = 50 \/ d = 51)
        /\ (GT ∉ attrs)
        /\ [h; d] `prefix_of` element_name (Regex.whole m)
        /\ Regex.group m 2 = body)
  /\ (forall sep bodies,
        LT ∉ sep -> Forall (fun b => LT ∉ b) bodies ->
        exists y, extractData URL_resolve (h2_page sep bodies) baseOrigin = Ret y
                  /\ headings y = take 5 (stripTags <$> bodies))
  /\ (exists y, extractData URL_resolve seven_h2 baseOrigin = Ret y
        /\ headings y = [js "No 1"; js "No 2"; js "No 3"; js "No 4"; js "No 5"]).
Proof.
  intros ms. split_and!.
  - eexists. split; [apply extractData_returns|]. simpl.
    rewrite heading_loop_take by (simpl; lia). simpl. split_and!.
    + done.
    + by rewrite length_take, length_fmap.
    + apply Forall_take, Forall_fmap, Forall_forall. intros m _. apply stripTags_is_clean.
  - apply scan_ordered.
  - intros m (i & Hi & Hm)%scan_elem. simpl in Hm.
    pose proof (match_at_index _ _ _ _ _ Hm) as Hidx.
    unfold Regex.match_at in Hm.
    destruct (Regex.run true hRegex [] [] (drop i html)) as [[caps rest]|] eqn:Hrun; [|done].
    apply hRegex_shape in Hrun as (h & d & attrs & body & h' & Ht & Hh & Hh' & Hd & Ha & ->).
    injection Hm as <-. cbn [Regex.whole Regex.index Regex.group Regex.groups].
    rewrite Ht.
    set (pre := LT :: h :: d :: attrs ++ GT :: body ++ [LT; SLASH; h'; d; GT]).
    assert (Hw : take (length (pre ++ rest) - length rest) (pre ++ rest) = pre).
    { apply take_app_length'. rewrite length_app. lia. }
    exists h, d, attrs, body, h'. rewrite Hw. split_and!; try done.
    + by rewrite take_app_length.
    + by apply element_name_heading.
  - intros sep bodies Hsep Hb. eexists. split; [apply extractData_returns|]. simpl.
    rewrite heading_loop_take by (simpl; lia). simpl. f_equal.
    rewrite (list_fmap_compose (fun m => Regex.group m 2) stripTags).
    unfold Regex.exec_all. by rewrite scan_h2_page.
  - eexists. split; [apply extractData_returns|]. simpl. vm_compute. reflexivity.
Qed.

Lemma headings_first_five_matched_pairs_shouted :
  (exists m, m ∈ Regex.exec_all true hRegex shouted_heading
     /\ exists h d attrs body h',
         take (length (Regex.whole m)) (drop (Regex.index m) shouted_heading) = Regex.whole m
         /\ Regex.whole m = LT :: h :: d :: attrs ++ GT :: body ++ [LT; SLASH; h'; d; GT]
         /\ (h = 104 \/ h = 72) /\ (h' = 104 \/ h' = 72)
         /\ (d = 49 \/ d = 50 \/ d = 51)
         /\ (GT ∉ attrs)
         /\ [h; d] `prefix_of` element_name (Regex.whole m)
         /\ Regex.group m 2 = body)
  /\ (exists y,
        extractData resolve_simple
          (h2_page [LF] [js "a"; js "b"; js "c"; js "d"; js "e"; js "f"; js "g"])
          example_origin = Ret y
        /\ headings y = [js "a"; js "b"; js "c"; js "d"; js "e"]).
Proof.
  destruct (headings_first_five_matched_pairs resolve_simple shouted_heading example_origin)
    as (_ & _ & H & Hpage & _).
  split.
  - assert (Hin : {| Regex.index := 0; Regex.whole := shouted_heading;
                     Regex.groups := [(2%nat, js "Hi"); (1%nat, js "H1")] |}
                  ∈ Regex.exec_all true hRegex shouted_heading).
    { replace (Regex.exec_all true hRegex shouted_heading)
        with [{| Regex.index := 0; Regex.whole := shouted_heading;
                 Regex.groups := [(2%nat, js "Hi"); (1%nat, js "H1")] |}]
        by (vm_compute; reflexivity).
      by left. }
    eexists. split; [exact Hin|]. apply H. exact Hin.
  - destruct (Hpage [LF] [js "a"; js "b"; js "c"; js "d"; js "e"; js "f"; js "g"])
      as (y & Hy & Hh); [by_computation | by_computation |].
    exists y. split; [exact Hy|]. rewrite Hh. vm_compute. reflexivity.
Defined.

(** C6 as stated fails: an element that is no [h1], [h2] or [h3] is
    collected as a heading. *)
Lemma heading_collected_from_another_element :
  element_name misnamed_heading = js "h1x"
  /\ extractData resolve_simple misnamed_heading example_origin
     = Ret {| title := None; headings := [js "a"]; links := [] |}.
Proof. split; vm_compute; reflexivity. Qed.
